(** * The letters game: board, dictionary and move engine of [server.js]

    A shallow embedding of the three controllers of [server.js]
    ([createGame], [setGameDict], [makeMove]) and of their helpers, followed
    by the properties of the engine.

    The controllers receive what the transport hands them: [req.body], a
    value parsed from JSON, and the route parameter [gameId], a string.  The
    controllers are given first for a parameter that is the numeral of an
    array index, as the index itself; [games_at] and the two [_route]
    functions then give what [games[gameId]] finds for the string.  The
    process-wide array [games] is threaded through the controllers as an
    explicit state; [console.log] is left out.  A controller that throws is
    answered by the framework, with status 500. *)

From Stdlib Require Import ZArith QArith Qpower String Ascii Lia.
From stdpp Require Import base option list strings pretty gmap.

Set Warnings "-register-all,-clear-no-such-hyp".
Open Scope Z_scope.

(** ** Strings

    A string of the program is the list of its UTF-16 code units, so that
    [length] is its [.length]. *)

Abbreviation jsstring := (list N).

(** The string that a literal of this file denotes: the bytes of the literal
    are read as UTF-8, and a character beyond the basic plane gives its two
    surrogates.  A byte that starts no well-formed sequence stands for
    itself. *)

Definition continuation (c : ascii) : option N :=
  let n := N_of_ascii c in
  if ((128 <=? n) && (n <? 192))%N then Some (n - 128)%N else None.

Definition units_of_code_point (cp : N) : jsstring :=
  if (cp <? 65536)%N then [cp]
  else [55296 + (cp - 65536) / 1024; 56320 + (cp - 65536) mod 1024]%N.

Fixpoint str (s : string) : jsstring :=
  match s with
  | EmptyString => []
  | String b s1 =>
      let n := N_of_ascii b in
      let alone := n :: str s1 in
      if (n <? 192)%N then alone else
      match s1 with
      | String c1 s2 =>
          match continuation c1 with
          | Some x1 =>
              if (n <? 224)%N
              then units_of_code_point ((n - 192) * 64 + x1) ++ str s2 else
              match s2 with
              | String c2 s3 =>
                  match continuation c2 with
                  | Some x2 =>
                      if (n <? 240)%N
                      then units_of_code_point ((n - 224) * 4096 + x1 * 64 + x2) ++ str s3 else
                      match s3 with
                      | String c3 s4 =>
                          match continuation c3 with
                          | Some x3 =>
                              units_of_code_point
                                ((n - 240) * 262144 + x1 * 4096 + x2 * 64 + x3) ++ str s4
                          | None => alone
                          end
                      | EmptyString => alone
                      end
                  | None => alone
                  end
              | EmptyString => alone
              end
          | None => alone
          end
      | EmptyString => alone
      end
  end.

(** [l.join(sep)] on strings *)
Fixpoint join (sep : jsstring) (l : list jsstring) : jsstring :=
  match l with
  | [] => []
  | [s] => s
  | s :: l => s ++ sep ++ join sep l
  end.

(** ** Numbers

    [Fin q] is a finite number whose exact value is the rational [q].  The
    arithmetic below is exact; it agrees with the double-precision arithmetic
    of the runtime whenever operands and result are integers below 2^53 in
    magnitude, which is the case for every operation the engine performs on a
    tile that passed [tileIsValid].  Remainder and comparison are exact in the
    runtime as well. *)

Inductive number :=
  | NaN
  | Infinity (negative : bool)
  | Fin (q : Q).

Definition int (z : Z) : number := Fin (inject_Z z).
Coercion int : Z >-> number.

(** [a === b] on two numbers *)
Definition num_eq (a b : number) : bool :=
  match a, b with
  | Fin p, Fin q => Qeq_bool p q
  | Infinity s, Infinity t => Bool.eqb s t
  | _, _ => false
  end.

(** [a <= b] on two numbers; [a >= b] is [num_le b a] *)
Definition num_le (a b : number) : bool :=
  match a, b with
  | NaN, _ | _, NaN => false
  | Fin p, Fin q => Qle_bool p q
  | Infinity true, _ => true
  | _, Infinity false => true
  | _, _ => false
  end.

Definition num_neg (a : number) : number :=
  match a with
  | NaN => NaN
  | Infinity s => Infinity (negb s)
  | Fin q => Fin (- q)
  end.

Definition num_add (a b : number) : number :=
  match a, b with
  | NaN, _ | _, NaN => NaN
  | Fin p, Fin q => Fin (p + q)
  | Infinity s, Infinity t => if Bool.eqb s t then Infinity s else NaN
  | Infinity s, Fin _ | Fin _, Infinity s => Infinity s
  end.

Definition num_sub (a b : number) : number := num_add a (num_neg b).

(** [a % 1]: the remainder has the sign of the dividend *)
Definition num_rem1 (a : number) : number :=
  match a with
  | Fin q => Fin (Z.rem (Qnum q) (Zpos (Qden q)) # Qden q)
  | _ => NaN
  end.

(** [Math.pow(2, e)] for an integer [e] *)
Definition Math_pow2 (e : Z) : number := Fin (Qpower 2 e).

(** ** Values

    What [JSON.parse] builds.  [undefined], which only arises from reading a
    missing property or element, is the [None] of an [option value].  An
    object is the list of its own properties, in which no name occurs twice;
    of a list that repeats a name the first entry is read. *)

Inductive value :=
  | VNull
  | VBool (b : bool)
  | VNum (n : number)
  | VStr (s : jsstring)
  | VArr (elems : list value)
  | VObj (fields : list (jsstring * value)).

(** an array of integers, and an array of strings *)
Definition tiles_of (l : list Z) : value := VArr (map (λ z, VNum (int z)) l).
Definition strings_of (l : list jsstring) : value := VArr (map VStr l).

(** ** Calls that may throw

    A conversion of a value to a primitive throws a [TypeError] on some
    objects.  [Threw] is the outcome of a call that throws, [Returned a] of
    one that returns [a]. *)

Inductive outcome (A : Type) : Type :=
  | Returned (a : A)
  | Threw.
Arguments Returned {A} a.
Arguments Threw {A}.

Definition bind {A B} (o : outcome A) (k : A → outcome B) : outcome B :=
  match o with
  | Returned a => k a
  | Threw => Threw
  end.

Notation "'let*' x ':=' o 'in' k" := (bind o (λ x, k))
  (at level 10, x name, o at level 100, k at level 200, only parsing).

(** [a && b], where [b] is evaluated only when [a] returned [true] *)
Definition and_then (a b : outcome bool) : outcome bool :=
  let* x := a in if x then b else Returned false.
Infix "&&&" := and_then (at level 40, left associativity).

(** [a || b], where [b] is evaluated only when [a] returned [false] *)
Definition or_else (a b : outcome bool) : outcome bool :=
  let* x := a in if x then Returned true else b.
Infix "|||" := or_else (at level 50, left associativity).

(** [l.every(f)]: [f] receives the element, its index and [l]; the elements
    are tested in order, up to the first one on which [f] returns [false] or
    throws *)
Fixpoint every_from {A} (f : A → nat → list A → outcome bool)
    (array : list A) (index : nat) (rest : list A) : outcome bool :=
  match rest with
  | [] => Returned true
  | x :: rest =>
      let* b := f x index array in
      if b then every_from f array (S index) rest else Returned false
  end.

Definition every {A} (f : A → nat → list A → outcome bool) (l : list A) : outcome bool :=
  every_from f l 0 l.

(** [l.map(f)], up to the first element on which [f] throws *)
Fixpoint map_or_throw {A B} (f : A → outcome B) (l : list A) : outcome (list B) :=
  match l with
  | [] => Returned []
  | x :: l => let* y := f x in let* ys := map_or_throw f l in Returned (y :: ys)
  end.

(** ** Built-ins of the runtime

    Three conversions of the language are not part of the repository and are
    taken as an interface: case mapping, and the two conversions between
    strings and numbers.  Every property below holds for every
    implementation of the interface. *)

Class Builtins := {
  toUpperCase : jsstring → jsstring;    (* String.prototype.toUpperCase *)
  StringToNumber : jsstring → number;   (* ToNumber of a string *)
  NumberToString : number → jsstring;   (* ToString of a number *)
}.

Section Engine.
Context `{!Builtins}.

(** *** Conversions *)

(** [name in fields], for the own properties of a parsed object *)
Definition has_own (fields : list (jsstring * value)) (name : jsstring) : bool :=
  existsb (λ kv, bool_decide (fst kv = name)) fields.

(** [ToString].  An array prints as [join(",")], which prints its [null]
    elements as the empty string.  An object prints through its [toString];
    a parsed object that has a property of that name has a value there that
    cannot be called, its inherited [valueOf] returns the object itself, and
    the conversion throws; any other parsed object inherits the [toString]
    that prints ["[object Object]"]. *)
Fixpoint ToString (v : value) : outcome jsstring :=
  match v with
  | VNull => Returned (str "null")
  | VBool b => Returned (if b then str "true" else str "false")
  | VNum n => Returned (NumberToString n)
  | VStr s => Returned s
  | VArr elems =>
      let* parts :=
        (fix each (elems : list value) : outcome (list jsstring) :=
           match elems with
           | [] => Returned []
           | e :: elems =>
               let* s := match e with VNull => Returned [] | _ => ToString e end in
               let* ss := each elems in
               Returned (s :: ss)
           end) elems in
      Returned (join (str ",") parts)
  | VObj fields =>
      if has_own fields (str "toString") then Threw
      else Returned (str "[object Object]")
  end.

(** what an array prints an element as *)
Definition printed (e : value) : outcome jsstring :=
  match e with VNull => Returned [] | _ => ToString e end.

(** the values on which [ToString] throws: an object with a property named
    [toString], and an array that holds such an object at any depth *)
Fixpoint unprintable_in (v : value) : bool :=
  match v with
  | VArr elems => existsb unprintable_in elems
  | VObj fields => has_own fields (str "toString")
  | _ => false
  end.

(** [ToPrimitive], towards a number or with no preference: an array or an
    object gives back itself from [valueOf] and is then printed *)
Definition ToPrimitive (v : value) : outcome value :=
  match v with
  | VArr _ | VObj _ => let* s := ToString v in Returned (VStr s)
  | _ => Returned v
  end.

(** [ToNumber] of a primitive *)
Definition number_of_primitive (p : value) : number :=
  match p with
  | VNull => 0
  | VBool b => if b then 1 else 0
  | VNum n => n
  | VStr s => StringToNumber s
  | _ => NaN
  end.

Definition ToNumber (v : value) : outcome number :=
  let* p := ToPrimitive v in Returned (number_of_primitive p).

Definition isNaN (v : value) : outcome bool :=
  let* n := ToNumber v in Returned (match n with NaN => true | _ => false end).

(** [a % 1 === 0], [a >= k], [a <= k] *)
Definition js_is_integer (a : value) : outcome bool :=
  let* n := ToNumber a in Returned (num_eq (num_rem1 n) 0).
Definition js_ge (a : value) (k : number) : outcome bool :=
  let* n := ToNumber a in Returned (num_le k n).
Definition js_le (a : value) (k : number) : outcome bool :=
  let* n := ToNumber a in Returned (num_le n k).

(** [a - k] *)
Definition js_sub (a : value) (k : number) : outcome value :=
  let* n := ToNumber a in Returned (VNum (num_sub n k)).

(** [a + k]: concatenation when the left operand converts to a string *)
Definition js_add (a : value) (k : number) : outcome value :=
  let* p := ToPrimitive a in
  Returned match p with
           | VStr s => VStr (s ++ NumberToString k)
           | _ => VNum (num_add (number_of_primitive p) k)
           end.

(** [a === b] where [a] is the result of an operator, hence a primitive, and
    [b] is an array element or [undefined].  Operands of different types are
    never equal. *)
Definition strict_eq (a : value) (b : option value) : bool :=
  match a, b with
  | VNull, Some VNull => true
  | VBool x, Some (VBool y) => Bool.eqb x y
  | VNum x, Some (VNum y) => num_eq x y
  | VStr s, Some (VStr t) => bool_decide (s = t)
  | _, _ => false
  end.

(** The equality of [Set] and of [includes], between two elements at
    different positions of a parsed array: primitives are compared by value
    ([NaN] equals itself), while two arrays or two objects are two distinct
    references even when they look alike. *)
Definition SameValueZero (a b : value) : bool :=
  match a, b with
  | VNull, VNull => true
  | VBool x, VBool y => Bool.eqb x y
  | VNum NaN, VNum NaN => true
  | VNum x, VNum y => num_eq x y
  | VStr s, VStr t => bool_decide (s = t)
  | _, _ => false
  end.

(** [new Set(l)], as the list of its members in insertion order *)
Definition Set_add (seen : list value) (x : value) : list value :=
  if existsb (SameValueZero x) seen then seen else seen ++ [x].

Definition Set_of (l : list value) : list value := foldl Set_add [] l.

(** [a === b] for an operation [a] *)
Definition equals (a : outcome value) (b : option value) : outcome bool :=
  let* x := a in Returned (strict_eq x b).

(** *** Reading a request body

    [bodyParser.json()] in its default strict mode gives the controllers an
    object or an array (an empty object when the request has no JSON body),
    so the receiver of [.board] and [.words] is never [null].  Neither name
    is defined on a prototype: on anything but an object holding the field,
    the read yields [undefined]. *)
Definition field (v : value) (name : jsstring) : option value :=
  match v with
  | VObj fields => snd <$> find (λ kv, bool_decide (fst kv = name)) fields
  | _ => None
  end.

Definition truthy (v : option value) : bool :=
  match v with
  | None | Some VNull => false
  | Some (VBool b) => b
  | Some (VNum NaN) => false
  | Some (VNum n) => negb (num_eq n 0)
  | Some (VStr s) => negb (bool_decide (s = []))
  | Some (VArr _) | Some (VObj _) => true
  end.

Definition Array_isArray (v : option value) : bool :=
  match v with Some (VArr _) => true | _ => false end.

Definition elements (v : option value) : list value :=
  match v with Some (VArr elems) => elems | _ => [] end.

(** [typeof v === "string"] *)
Definition is_string (v : value) : bool :=
  match v with VStr _ => true | _ => false end.

(** [typeof v === "number"] *)
Definition is_number (v : value) : bool :=
  match v with VNum _ => true | _ => false end.

(** the integer a number tile stands for *)
Definition tile_index (tile : value) : Z :=
  match tile with
  | VNum (Fin q) => Qnum q / Zpos (Qden q)
  | _ => 0
  end.

(** the characters of [v], read only after [is_string v] *)
Definition chars (v : value) : jsstring :=
  match v with VStr s => s | _ => [] end.

(** ** The game record and the responses *)

(* Game : { "dict": {String: Boolean}, "board": [String], "moves": [[Number]] } *)
Record Game := {
  dict : option (gset jsstring);   (* [null] until a dictionary is attached *)
  board : list jsstring;
  moves : list (list value);
}.

Inductive response :=
  | send (status : nat) (text : string)                   (* res.status(n).send(text) *)
  | sendStatus (status : nat)                             (* res.sendStatus(n) *)
  | json_gameId (status : nat) (gameId : nat)             (* res.status(n).json({gameId}) *)
  | json_move (status : nat) (moveId : nat) (points : number) (* res.status(n).json({moveId, points}) *)
  | uncaught.                     (* the controller threw; the framework answers 500 *)

(** The error kinds of the specification are these responses. *)
Definition InvalidBoard : response := send 400 "Invalid board".
Definition NotFound : response := send 404 "Game was not found".
Definition InvalidDictionary : response := send 400 "Invalid dictionary".
Definition DictionaryMissing : response := send 403 "Game is missing dictionary".
Definition MalformedMove : response := send 400 "Move must be list of 3+ tiles".
Definition DisallowedMove : response := send 403 "Move is not allowed on board".
Definition DuplicateMove : response := send 403 "Move already played".

(** ** Helpers *)

(* boardIsValid : boardWrapper -> Boolean *)
Definition boardIsValid (board : value) : bool :=
  truthy (field board (str "board"))
  && Array_isArray (field board (str "board"))
  && (length (elements (field board (str "board"))) =? 16)%nat
  && forallb (λ char, is_string char && (length (chars char) =? 1)%nat)
       (elements (field board (str "board"))).

(* dictIsValid : dictWrapper -> Boolean *)
Definition dictIsValid (dict : value) : bool :=
  truthy (field dict (str "words"))
  && Array_isArray (field dict (str "words"))
  && forallb (λ word, is_string word) (elements (field dict (str "words"))).

(* tileIsValid : Number -> Boolean *)
Definition tileIsValid (tile : value) : outcome bool :=
  (let* nan := isNaN tile in Returned (negb nan)) (* is number *)
  &&& js_is_integer tile (* is integer *)
  &&& js_ge tile 1 &&& js_le tile 16. (* is 1 to 16 *)

(** [tiles.every(tileIsValid)] *)
Definition every_tileIsValid (tiles : list value) : outcome bool :=
  every (λ tile _ _, tileIsValid tile) tiles.

(** [game.board[n]] for a number [n]: an element when [n] is a non-negative
    integer below the length, [undefined] otherwise *)
Definition board_at (game : Game) (n : value) : option jsstring :=
  match n with
  | VNum (Fin q) =>
      if num_eq (num_rem1 (Fin q)) 0 && num_le 0 (Fin q)
      then board game !! Z.to_nat (Qnum q / Zpos (Qden q))
      else None
  | _ => None
  end.

(** the letter a tile stands for, [game.board[tile - 1]]; a missing letter
    is joined as the empty string *)
Definition letter (game : Game) (tile : value) : outcome jsstring :=
  let* n := js_sub tile 1 in Returned (default [] (board_at game n)).

(* tilesToWord : [Number] -> Game -> String *)
Definition tilesToWord (tiles : list value) (game : Game) : outcome jsstring :=
  let* letters := map_or_throw (letter game) tiles in
  Returned (toUpperCase (concat letters)).

(* isConsecutiveNeighbor : Number -> Number -> [Number] -> Boolean *)
Definition isConsecutiveNeighbor (tile : value) (index : nat) (tiles : list value)
  : outcome bool :=
  if (index =? 0)%nat then Returned true else
  let lastTile := tiles !! (index - 1)%nat in
  equals (js_sub tile 4) lastTile     (* last tile N of tile *)
  ||| equals (js_add tile 4) lastTile (* last tile S of tile *)
  ||| equals (js_sub tile 1) lastTile (* last tile W of tile *)
  ||| equals (js_add tile 1) lastTile (* last tile E of tile *)
  ||| equals (js_sub tile 3) lastTile (* last tile NE of tile *)
  ||| equals (js_add tile 3) lastTile (* last tile SW of tile *)
  ||| equals (js_sub tile 5) lastTile (* last tile NW of tile *)
  ||| equals (js_add tile 5) lastTile. (* last tile SE of tile *)

(** [game.dict[word]]: the dictionary holds [true] under each of its keys.
    Its keys and [word] both come out of [toUpperCase]; the properties an
    object inherits all have a lower-case letter in their name and are never
    the result of the lookup. *)
Definition dict_has (game : Game) (word : jsstring) : bool :=
  match dict game with
  | Some words => bool_decide (word ∈ words)
  | None => false
  end.

(* moveIsAllowed : [Number] -> Game -> Boolean *)
Definition moveIsAllowed (tiles : list value) (game : Game) : outcome bool :=
  (* The formed word is at least 3 letters. *)
  Returned (3 <=? length tiles)%nat
  (* Consecutive tiles are neighbors (including diagonals). *)
  &&& every isConsecutiveNeighbor tiles
  (* Tiles can only be used once in each move. *)
  &&& Returned (length tiles =? length (Set_of tiles))%nat
  (* The formed word is present in the dictionary. *)
  &&& (let* word := tilesToWord tiles game in Returned (dict_has game word)).

(** the words of the moves played, [game.moves.map(move => tilesToWord(move, game))] *)
Definition words_played (game : Game) : outcome (list jsstring) :=
  map_or_throw (λ move, tilesToWord move game) (moves game).

(* moveExists : [Number] -> Game -> Boolean *)
Definition moveExists (tiles : list value) (game : Game) : outcome bool :=
  let* played := words_played game in
  let* word := tilesToWord tiles game in
  Returned (bool_decide (word ∈ played)).

(** ** Controllers

    Each takes the array [games] and returns it, as the call leaves it, with
    the response.  [gameId] is the index whose numeral the route parameter
    is.  The word that [makeMove] computes for its log line, after the
    push, is the one [moveExists] computed before, on the same board. *)

Definition createGame (games : list Game) (body : value) : list Game * response :=
  let boardWrapper := body in
  if negb (boardIsValid boardWrapper) then (games, send 400 "Invalid board") else
  let gameId := length games in (* 0-indexed *)
  (games ++ [ {| dict := None;
                 board := map (λ char, toUpperCase (chars char))
                            (elements (field boardWrapper (str "board")));
                 moves := [] |} ],
   json_gameId 201 gameId).

(** [words.reduce((dict, word) => Object.assign(dict, {[word.toUpperCase()]: true}), {})],
    the object read as the set of its keys *)
Definition words_of (words : list value) : gset jsstring :=
  foldl (λ dict word, {[ toUpperCase (chars word) ]} ∪ dict) ∅ words.

Definition setGameDict (games : list Game) (gameId : nat) (body : value)
  : list Game * response :=
  let dictWrapper := body in
  match games !! gameId with
  | None => (games, send 404 "Game was not found")
  | Some game =>
      if negb (dictIsValid dictWrapper) then (games, send 400 "Invalid dictionary") else
      (<[gameId := {| dict := Some (words_of (elements (field dictWrapper (str "words"))));
                      board := board game; moves := moves game |}]> games,
       sendStatus 204)
  end.

Definition makeMove (games : list Game) (gameId : nat) (body : value)
  : list Game * response :=
  match games !! gameId with
  | None => (games, send 404 "Game was not found")
  | Some game =>
      if negb (bool_decide (is_Some (dict game)))
      then (games, send 403 "Game is missing dictionary") else
      if negb (Array_isArray (Some body))
      then (games, send 400 "Move must be list of 3+ tiles") else
      let tiles := elements (Some body) in
      match every_tileIsValid tiles with
      | Threw => (games, uncaught)
      | Returned false => (games, send 400 "Move must be list of 3+ tiles")
      | Returned true =>
      match moveIsAllowed tiles game with
      | Threw => (games, uncaught)
      | Returned false => (games, send 403 "Move is not allowed on board")
      | Returned true =>
      match moveExists tiles game with
      | Threw => (games, uncaught)
      | Returned true => (games, send 403 "Move already played")
      | Returned false =>
          let moveId := length (moves game) in (* 0-indexed *)
          let points := Math_pow2 (Z.of_nat (length tiles) - 3) in (* 3,4,5,6 -> 1,2,4,8 *)
          (<[gameId := {| dict := dict game; board := board game;
                          moves := moves game ++ [tiles] |}]> games,
           json_move 201 moveId points)
      end end end
  end.

(** ** The route parameter

    [games[gameId]] is a property read with a string.  The numeral of an
    array index (no sign, no leading zero, below 2^32 - 1) reads the element
    at that index, and the controllers above apply.  The name [length] reads
    the number of games.  Any other string of digits names no property,
    neither of the array nor of its prototypes.  Any other string is looked
    up along the prototype chain of the array; what it finds there depends
    on the runtime and on what earlier requests hung on it, and is not given
    here: no element of [games] is reached that way. *)

Definition digit_value (u : N) : option N :=
  if ((48 <=? u) && (u <=? 57))%N then Some (u - 48)%N else None.

Fixpoint numeral_value (acc : N) (s : jsstring) : option N :=
  match s with
  | [] => Some acc
  | u :: s => d ← digit_value u; numeral_value (10 * acc + d)%N s
  end.

Definition array_index (key : jsstring) : option nat :=
  match key with
  | [] => None
  | [48%N] => Some 0%nat
  | 48%N :: _ => None
  | _ => n ← numeral_value 0 key;
         if (n <? 4294967295)%N then Some (N.to_nat n) else None
  end.

(** the numeral of an index, as a client writes it into the path from the
    [gameId] it was given *)
Definition numeral (index : nat) : jsstring := str (pretty index).

(** what [games[gameId]] reads *)
Inductive property :=
  | element (index : nat)   (* [games[index]], [undefined] from the length on *)
  | the_length              (* [games.length] *)
  | no_property.            (* [undefined] *)

Definition games_at (gameId : jsstring) : option property :=
  match array_index gameId with
  | Some index => Some (element index)
  | None =>
      if bool_decide (gameId = str "length") then Some the_length
      else if bool_decide (gameId ≠ []) && forallb (λ u, bool_decide (is_Some (digit_value u))) gameId
      then Some no_property
      else None
  end.

(** [PUT /games/:gameId/dict].  With [length] as parameter [game] is a
    number: it is falsy while there is no game; the assignment of a
    property to it is dropped. *)
Definition setGameDict_route (games : list Game) (gameId : jsstring) (body : value)
  : option (list Game * response) :=
  property ← games_at gameId;
  Some match property with
       | element index => setGameDict games index body
       | the_length =>
           if (length games =? 0)%nat then (games, send 404 "Game was not found") else
           if negb (dictIsValid body) then (games, send 400 "Invalid dictionary") else
           (games, sendStatus 204)
       | no_property => (games, send 404 "Game was not found")
       end.

(** [POST /games/:gameId/moves].  With [length] as parameter [game.dict] is
    read on a number, which has no such property. *)
Definition makeMove_route (games : list Game) (gameId : jsstring) (body : value)
  : option (list Game * response) :=
  property ← games_at gameId;
  Some match property with
       | element index => makeMove games index body
       | the_length =>
           if (length games =? 0)%nat then (games, send 404 "Game was not found") else
           (games, send 403 "Game is missing dictionary")
       | no_property => (games, send 404 "Game was not found")
       end.

(** ** Requests and runs of the server *)

Inductive request :=
  | POST_games (body : value)                    (* POST /games *)
  | PUT_dict (gameId : nat) (body : value)       (* PUT /games/:gameId/dict *)
  | POST_moves (gameId : nat) (body : value).    (* POST /games/:gameId/moves *)

Definition handle (games : list Game) (r : request) : list Game * response :=
  match r with
  | POST_games body => createGame games body
  | PUT_dict gameId body => setGameDict games gameId body
  | POST_moves gameId body => makeMove games gameId body
  end.

(** the state after a sequence of requests, and the responses in order *)
Fixpoint run (games : list Game) (rs : list request) : list Game * list response :=
  match rs with
  | [] => (games, [])
  | r :: rs =>
      let '(games1, resp) := handle games r in
      let '(games2, resps) := run games1 rs in
      (games2, resp :: resps)
  end.

(** *** Reading a run *)

(** [games] after [game.moves.push(tiles)] on the game at [gameId] *)
Definition move_appended (games : list Game) (gameId : nat) (game : Game) (tiles : list value)
  : list Game :=
  <[gameId := {| dict := dict game; board := board game; moves := moves game ++ [tiles] |}]> games.

(** the move history of the game at [gameId], empty while there is no such game *)
Definition moves_of (games : list Game) (gameId : nat) : list (list value) :=
  from_option moves [] (games !! gameId).

(** the [moveId]s that the submissions to the game at [gameId] were answered
    with, in the order of the run *)
Fixpoint moveIds (gameId : nat) (rs : list request) (resps : list response) : list nat :=
  match rs, resps with
  | POST_moves g _ :: rs, json_move _ moveId _ :: resps =>
      if decide (g = gameId) then moveId :: moveIds gameId rs resps
      else moveIds gameId rs resps
  | _ :: rs, _ :: resps => moveIds gameId rs resps
  | _, _ => []
  end.


(** the game a request addresses, if any *)
Definition target (r : request) : option nat :=
  match r with
  | POST_games _ => None
  | PUT_dict gameId _ | POST_moves gameId _ => Some gameId
  end.

(** *** The neighbour test on integers, and the grid of its comment *)

(** the eight differences [lastTile - tile] that [isConsecutiveNeighbor] accepts *)
Definition is_offset (d : Z) : bool :=
  (d =? -4) || (d =? 4) || (d =? -1) || (d =? 1)
  || (d =? -3) || (d =? 3) || (d =? -5) || (d =? 5).

(** every tile of an integer path but the first is an offset away from the
    tile before it *)
Fixpoint linked (zs : list Z) : bool :=
  match zs with
  | a :: (b :: _) as rest => is_offset (a - b) && linked rest
  | _ => true
  end.

(** the layout the source gives for reference:
      [[ 1, 2, 3, 4],
       [ 5, 6, 7, 8],
       [ 9,10,11,12],
       [13,14,15,16]] *)
Definition grid_row (z : Z) : Z := (z - 1) / 4.
Definition grid_col (z : Z) : Z := (z - 1) mod 4.

(** two different cells of the layout that touch by a side or by a corner *)
Definition grid_neighbours (a b : Z) : bool :=
  negb (a =? b)
  && (Z.abs (grid_row a - grid_row b) <=? 1)
  && (Z.abs (grid_col a - grid_col b) <=? 1).

(** the pairs of cells, lower one first, that are an offset apart without
    touching: the last cell of a row with the first of the next one (1
    apart) or of the one after (5 apart), and the two ends of a row (3 apart) *)
Definition wrapping_pairs : list (Z * Z) :=
  [(4, 5); (8, 9); (12, 13); (1, 4); (5, 8); (9, 12); (13, 16); (4, 9); (8, 13)].

Definition wraps (a b : Z) : bool :=
  existsb (λ p, ((fst p =? a) && (snd p =? b)) || ((fst p =? b) && (snd p =? a)))
    wrapping_pairs.

(** *** What the checks of a move leave of it

    the tests of [makeMove] and [moveIsAllowed] that read the tiles alone *)
Definition is_path (tiles : list value) : Prop :=
  every_tileIsValid tiles = Returned true
  ∧ (3 ≤ length tiles)%nat
  ∧ every isConsecutiveNeighbor tiles = Returned true
  ∧ length (Set_of tiles) = length tiles.

(** what holds of every game the server ever has *)
Definition well_formed (game : Game) : Prop :=
  length (board game) = 16%nat
  ∧ Forall is_path (moves game)
  ∧ ∃ played, words_played game = Returned played ∧ NoDup played.

End Engine.

(** ** An implementation of the built-ins, to run examples

    Case mapping of the ASCII letters, and the conversions between integers
    and their plain decimal numerals ([Number("2")] is [2], [String(4)] is
    ["4"], [Number("")] is [0]).  The examples of this file use no other
    string; the runtime converts more of them (blanks, signs, fractions,
    exponents, other radices), and prints a fraction, which is shown here as
    a quotient, in decimal notation. *)

Definition upper_unit (u : N) : N :=
  if ((97 <=? u) && (u <=? 122))%N then (u - 32)%N else u.

Definition upper (s : jsstring) : jsstring := map upper_unit s.

Definition decimal_to_number (s : jsstring) : number :=
  match numeral_value 0 s with
  | Some n => int (Z.of_N n)
  | None => NaN
  end.

Definition number_to_decimal (n : number) : jsstring :=
  match n with
  | NaN => str "NaN"
  | Infinity s => if s then str "-Infinity" else str "Infinity"
  | Fin q =>
      if Z.eqb (Z.rem (Qnum q) (Zpos (Qden q))) 0
      then str (pretty (Z.div (Qnum q) (Zpos (Qden q))))
      else str (pretty (Qnum q)) ++ str "/" ++ str (pretty (Zpos (Qden q)))
  end.

Definition decimal_builtins : Builtins := {|
  toUpperCase := upper;
  StringToNumber := decimal_to_number;
  NumberToString := number_to_decimal;
|}.

(** ** The scenario of the test suite *)

Definition test_board : value :=
  VObj [(str "board",
         strings_of (map str ["a";"b";"c";"d";"e";"f";"g";"h";"i";"j";"k";"l";"m";"n";"o";"p"]%string))].
Definition test_dict : value :=
  VObj [(str "words", strings_of (map str ["fab"; "Load"; "bab"]%string))].

(** the game once the board is posted and the dictionary attached *)
Definition test_game : Game := {|
  dict := Some (list_to_set (map str ["FAB"; "LOAD"; "BAB"]%string));
  board := map str ["A";"B";"C";"D";"E";"F";"G";"H";"I";"J";"K";"L";"M";"N";"O";"P"]%string;
  moves := [];
|}.

(** a game whose board spells FAB along two paths: 1, 2, 3 and 1, 5, 6 *)
Definition twice_game : Game := {|
  dict := Some (list_to_set [str "FAB"]);
  board := map str ["F";"A";"B";"D";"A";"B";"G";"H";"I";"J";"K";"L";"M";"N";"O";"P"]%string;
  moves := [];
|}.

(** a path that comes back to tile 2, written the second time as a string *)
Definition tiles_2_1_2 : list value := [VNum 2; VNum 1; VStr (str "2")].

(** an object with a property named [toString] *)
Definition unprintable : value := VObj [(str "toString", VNum 1)].

(** a dictionary with FAB and two longer words of the test board *)
Definition long_dict : value :=
  VObj [(str "words", strings_of (map str ["fab"; "abfe"; "abfej"]%string))].

(** one game, with submissions that are refused between those that are
    accepted: too short, played already, unprintable, to a game that does
    not exist *)
Definition interleaved_run : list request :=
  [POST_games test_board; PUT_dict 0 test_dict;
   POST_moves 0 (tiles_of [1; 2]); POST_moves 0 (tiles_of [6; 1; 2]);
   POST_moves 0 (tiles_of [6; 1; 2]); POST_moves 0 (VArr [unprintable]);
   POST_moves 1 (tiles_of [6; 1; 2]); POST_moves 0 (VArr tiles_2_1_2)].

(** * Properties *)

Section Properties.
Context `{!Builtins}.

(** ** Numbers that are integers *)

Lemma Qle_bool_int (a b : Z) : Qle_bool (inject_Z a) (inject_Z b) = (a <=? b).
Proof. unfold Qle_bool; simpl. by rewrite !Z.mul_1_r. Qed.

Lemma Qeq_bool_int (a b : Z) : Qeq_bool (inject_Z a) (inject_Z b) = (a =? b).
Proof. unfold Qeq_bool; simpl. by rewrite !Z.mul_1_r. Qed.

Lemma num_eq_int (a b : Z) : num_eq (int a) (int b) = (a =? b).
Proof. apply Qeq_bool_int. Qed.

Lemma num_le_int (a b : Z) : num_le (int a) (int b) = (a <=? b).
Proof. apply Qle_bool_int. Qed.

Lemma num_eq_sub_int (a k b : Z) : num_eq (num_sub (int a) (int k)) (int b) = (a - k =? b).
Proof.
  unfold num_sub, num_add, num_neg, int, num_eq, Qeq_bool; simpl.
  rewrite !Z.mul_1_r. reflexivity.
Qed.

Lemma num_eq_add_int (a k b : Z) : num_eq (num_add (int a) (int k)) (int b) = (a + k =? b).
Proof.
  unfold num_add, int, num_eq, Qeq_bool; simpl.
  rewrite !Z.mul_1_r. reflexivity.
Qed.

(** ** Calls that may throw *)

Lemma and_then_true (a b : outcome bool) :
  a &&& b = Returned true ↔ a = Returned true ∧ b = Returned true.
Proof. destruct a as [[|]|]; simpl; split; try done; by intros [? ?]. Qed.

Lemma and_then_returned (x y : bool) : Returned x &&& Returned y = Returned (x && y).
Proof. by destruct x. Qed.

Lemma or_else_returned (x y : bool) : Returned x ||| Returned y = Returned (x || y).
Proof. by destruct x. Qed.

Lemma every_from_true {A} (f : A → nat → list A → outcome bool) array rest : ∀ index,
  every_from f array index rest = Returned true
  ↔ ∀ i x, rest !! i = Some x → f x (index + i)%nat array = Returned true.
Proof.
  induction rest as [|y rest IH]; intros index; simpl.
  - split; [|done]. by intros _ i x.
  - destruct (f y index array) as [[|]|] eqn:E; simpl.
    + rewrite IH. split.
      * intros Hall [|i] x Hx; simpl in Hx.
        -- injection Hx as <-. by rewrite Nat.add_0_r.
        -- rewrite <- Nat.add_succ_comm. by apply Hall.
      * intros Hall i x Hx. rewrite Nat.add_succ_comm. by apply Hall.
    + split; [done|]. intros Hall. specialize (Hall 0%nat y eq_refl).
      rewrite Nat.add_0_r in Hall. congruence.
    + split; [done|]. intros Hall. specialize (Hall 0%nat y eq_refl).
      rewrite Nat.add_0_r in Hall. congruence.
Qed.

Lemma every_from_ext {A} (f g : A → nat → list A → outcome bool) array array' rest :
  ∀ index index',
  (∀ i x, rest !! i = Some x → f x (index + i)%nat array = g x (index' + i)%nat array') →
  every_from f array index rest = every_from g array' index' rest.
Proof.
  induction rest as [|y rest IH]; intros index index' Hfg; [done|]. simpl.
  pose proof (Hfg 0%nat y eq_refl) as H0. rewrite !Nat.add_0_r in H0. rewrite H0.
  destruct (g y index' array') as [[|]|]; simpl; try done.
  apply IH. intros i x Hx. rewrite !Nat.add_succ_comm. by apply Hfg.
Qed.

(** the elements before the first one on which the callback does not return
    [true] decide the call *)
Lemma every_from_stops {A} (f : A → nat → list A → outcome bool) array pre x post o :
  ∀ index,
  (∀ i y, pre !! i = Some y → f y (index + i)%nat array = Returned true) →
  f x (index + length pre)%nat array = o → o ≠ Returned true →
  every_from f array index (pre ++ x :: post)
  = match o with Returned _ => Returned false | Threw => Threw end.
Proof.
  induction pre as [|y pre IH]; intros index Hpre Hx Ho; simpl in *.
  - rewrite Nat.add_0_r in Hx. rewrite Hx. by destruct o as [[|]|].
  - pose proof (Hpre 0%nat y eq_refl) as H0. rewrite Nat.add_0_r in H0. rewrite H0. simpl.
    apply IH; [|by rewrite Nat.add_succ_comm|done].
    intros i z Hz. rewrite Nat.add_succ_comm. by apply Hpre.
Qed.

Lemma map_or_throw_returned {A B} (f : A → outcome B) (g : A → B) l :
  Forall (λ x, f x = Returned (g x)) l → map_or_throw f l = Returned (map g l).
Proof.
  induction 1 as [|x l Hx _ IH]; [done|]. simpl. by rewrite Hx, IH.
Qed.

Lemma map_or_throw_ext {A B} (f g : A → outcome B) l :
  (∀ x, f x = g x) → map_or_throw f l = map_or_throw g l.
Proof. intros Hfg. induction l as [|x l IH]; [done|]. simpl. by rewrite Hfg, IH. Qed.

Lemma map_or_throw_app {A B} (f : A → outcome B) l1 l2 ys1 ys2 :
  map_or_throw f l1 = Returned ys1 → map_or_throw f l2 = Returned ys2 →
  map_or_throw f (l1 ++ l2) = Returned (ys1 ++ ys2).
Proof.
  revert ys1. induction l1 as [|x l1 IH]; intros ys1; simpl.
  - by intros [= <-] ->.
  - destruct (f x) as [y|]; simpl; [|done].
    destruct (map_or_throw f l1) as [ys|]; simpl; [|done].
    intros [= <-] H2. by rewrite (IH ys eq_refl H2).
Qed.

Lemma map_or_throw_lookup {A B} (f : A → outcome B) l ys i x :
  map_or_throw f l = Returned ys → l !! i = Some x →
  ∃ y, f x = Returned y ∧ ys !! i = Some y.
Proof.
  revert ys i. induction l as [|x' l IH]; intros ys i; [done|]. simpl.
  destruct (f x') as [y'|] eqn:E; simpl; [|done].
  destruct (map_or_throw f l) as [ys'|]; simpl; [|done].
  intros [= <-]. destruct i as [|i]; simpl.
  - intros [= <-]. eauto.
  - by apply IH.
Qed.

(** ** The tile check *)

(** The check throws when the conversion of the tile to a number does, and
    is the check of that number otherwise. *)
Lemma tileIsValid_ToNumber tile :
  tileIsValid tile = let* n := ToNumber tile in tileIsValid (VNum n).
Proof.
  unfold tileIsValid, isNaN, js_is_integer, js_ge, js_le.
  by destruct (ToNumber tile) as [n|].
Qed.

Lemma tileIsValid_int (z : Z) :
  tileIsValid (VNum (int z)) = Returned ((1 <=? z) && (z <=? 16)).
Proof.
  unfold tileIsValid, isNaN, js_is_integer, js_ge, js_le, ToNumber; simpl.
  rewrite Z.rem_1_r, !Qle_bool_int. simpl. by destruct (1 <=? z).
Qed.

Lemma tileIsValid_Fin (q : Q) :
  tileIsValid (VNum (Fin q))
  = Returned (num_eq (num_rem1 (Fin q)) 0 && num_le 1 (Fin q) && num_le (Fin q) 16).
Proof.
  unfold tileIsValid, isNaN, js_is_integer, js_ge, js_le, ToNumber. simpl.
  destruct (Qeq_bool _ _); simpl; [|done]. by destruct (Qle_bool _ _).
Qed.

Lemma tileIsValid_number (q : Q) :
  tileIsValid (VNum (Fin q)) = Returned true ↔ ∃ z : Z, (q == inject_Z z)%Q ∧ 1 ≤ z ≤ 16.
Proof.
  rewrite tileIsValid_Fin.
  assert (Hinj : ∀ b : bool, Returned b = Returned true ↔ b = true)
    by (intros b; split; [by intros [= ->]|by intros ->]).
  rewrite Hinj. clear Hinj.
  destruct q as [n d]; simpl.
  rewrite !andb_true_iff. unfold Qeq_bool, Qle_bool, Qeq; simpl.
  rewrite !Z.mul_1_r, !Z.mul_1_l. split.
  - intros [[Hrem Hge] Hle].
    apply Z.eqb_eq in Hrem. apply Z.leb_le in Hge, Hle.
    assert (Hdiv : n = Z.pos d * (n ÷ Z.pos d)).
    { pose proof (Z.quot_rem' n (Z.pos d)). lia. }
    exists (n ÷ Z.pos d). split; [lia|]. nia.
  - intros (z & Hz & Hlo & Hhi). subst n. repeat split.
    + apply Z.eqb_eq. rewrite Z.rem_mul; lia.
    + apply Z.leb_le. nia.
    + apply Z.leb_le. nia.
Qed.

(** The check of a number returns. *)
Lemma tileIsValid_returns n : ∃ b, tileIsValid (VNum n) = Returned b.
Proof. destruct n as [|neg|q]; [by eexists|by destruct neg; eexists|]. rewrite tileIsValid_Fin. eauto. Qed.

Lemma tileIsValid_special :
  tileIsValid VNull = Returned false ∧ tileIsValid (VBool false) = Returned false
  ∧ tileIsValid (VNum NaN) = Returned false
  ∧ ∀ s, tileIsValid (VNum (Infinity s)) = Returned false.
Proof. repeat split; try done. Qed.

(** A tile that passed the check converts to a number, through a
    primitive. *)
Lemma valid_tile_converts tile :
  tileIsValid tile = Returned true →
  ∃ p n, ToPrimitive tile = Returned p ∧ ToNumber tile = Returned n
         ∧ n = number_of_primitive p ∧ tileIsValid (VNum n) = Returned true.
Proof.
  rewrite tileIsValid_ToNumber. unfold ToNumber.
  destruct (ToPrimitive tile) as [p|]; simpl; [|done]. eauto 6.
Qed.

Lemma every_tileIsValid_true tiles :
  every_tileIsValid tiles = Returned true
  ↔ Forall (λ tile, tileIsValid tile = Returned true) tiles.
Proof.
  unfold every_tileIsValid, every. rewrite every_from_true, Forall_lookup. done.
Qed.

Lemma every_tileIsValid_ints (zs : list Z) :
  Forall (λ z, 1 ≤ z ≤ 16) zs →
  every_tileIsValid (map (λ z, VNum (int z)) zs) = Returned true.
Proof.
  intros Hzs. apply every_tileIsValid_true, Forall_fmap.
  eapply Forall_impl; [exact Hzs|]. intros z Hz. simpl. cbv beta in Hz. rewrite tileIsValid_int.
  f_equal. apply andb_true_iff. split; apply Z.leb_le; lia.
Qed.

(** ** The paths through [makeMove] *)

Lemma makeMove_not_found games gameId body :
  games !! gameId = None → makeMove games gameId body = (games, NotFound).
Proof. intros Hg. unfold makeMove. by rewrite Hg. Qed.

Lemma makeMove_no_dict games gameId game body :
  games !! gameId = Some game → dict game = None →
  makeMove games gameId body = (games, DictionaryMissing).
Proof. intros Hg Hd. unfold makeMove. by rewrite Hg, Hd. Qed.

Lemma makeMove_not_array games gameId game words body :
  games !! gameId = Some game → dict game = Some words →
  Array_isArray (Some body) = false →
  makeMove games gameId body = (games, MalformedMove).
Proof. intros Hg Hd Hshape. unfold makeMove. by rewrite Hg, Hd, Hshape. Qed.

Lemma makeMove_malformed games gameId game words tiles :
  games !! gameId = Some game → dict game = Some words →
  every_tileIsValid tiles = Returned false →
  makeMove games gameId (VArr tiles) = (games, MalformedMove).
Proof. intros Hg Hd Hv. unfold makeMove. rewrite Hg, Hd. simpl. by rewrite Hv. Qed.

Lemma makeMove_threw games gameId game words tiles :
  games !! gameId = Some game → dict game = Some words →
  every_tileIsValid tiles = Threw →
  makeMove games gameId (VArr tiles) = (games, uncaught).
Proof. intros Hg Hd Hv. unfold makeMove. rewrite Hg, Hd. simpl. by rewrite Hv. Qed.

Lemma makeMove_disallowed games gameId game words tiles :
  games !! gameId = Some game → dict game = Some words →
  every_tileIsValid tiles = Returned true → moveIsAllowed tiles game = Returned false →
  makeMove games gameId (VArr tiles) = (games, DisallowedMove).
Proof. intros Hg Hd Hv Ha. unfold makeMove. rewrite Hg, Hd; simpl. by rewrite Hv, Ha. Qed.

Lemma makeMove_duplicate games gameId game words tiles :
  games !! gameId = Some game → dict game = Some words →
  every_tileIsValid tiles = Returned true → moveIsAllowed tiles game = Returned true →
  moveExists tiles game = Returned true →
  makeMove games gameId (VArr tiles) = (games, DuplicateMove).
Proof.
  intros Hg Hd Hv Ha He. unfold makeMove. rewrite Hg, Hd; simpl. by rewrite Hv, Ha, He.
Qed.

Lemma makeMove_accepted games gameId game words tiles :
  games !! gameId = Some game → dict game = Some words →
  every_tileIsValid tiles = Returned true → moveIsAllowed tiles game = Returned true →
  moveExists tiles game = Returned false →
  makeMove games gameId (VArr tiles)
  = (move_appended games gameId game tiles,
     json_move 201 (length (moves game)) (Math_pow2 (Z.of_nat (length tiles) - 3))).
Proof.
  intros Hg Hd Hv Ha He. unfold makeMove, move_appended.
  rewrite Hg, Hd; simpl. by rewrite Hv, Ha, He.
Qed.

(** A [{moveId, points}] response comes from the last path only. *)
Lemma makeMove_json_inv games gameId body games' status moveId points :
  makeMove games gameId body = (games', json_move status moveId points) →
  ∃ game words tiles,
    games !! gameId = Some game ∧ dict game = Some words ∧ body = VArr tiles
    ∧ every_tileIsValid tiles = Returned true ∧ moveIsAllowed tiles game = Returned true
    ∧ moveExists tiles game = Returned false
    ∧ games' = move_appended games gameId game tiles
    ∧ status = 201%nat ∧ moveId = length (moves game)
    ∧ points = Math_pow2 (Z.of_nat (length tiles) - 3).
Proof.
  unfold makeMove. destruct (games !! gameId) as [game|] eqn:Hg; [|done].
  destruct (dict game) as [words|] eqn:Hd; simpl; [|done].
  destruct body as [| | | |tiles|]; simpl; try done.
  destruct (every_tileIsValid tiles) as [[|]|] eqn:Hv; simpl; [|done..].
  destruct (moveIsAllowed tiles game) as [[|]|] eqn:Ha; simpl; [|done..].
  destruct (moveExists tiles game) as [[|]|] eqn:He; [done| |done].
  intros [= <- <- <- <-]. exists game, words, tiles.
  repeat split; try done. unfold move_appended. by rewrite Hd.
Qed.

(** Any other response leaves [games] as it was. *)
Lemma makeMove_send_inv games gameId body games' status text :
  makeMove games gameId body = (games', send status text) →
  games' = games
  ∧ send status text ∈ [NotFound; DictionaryMissing; MalformedMove; DisallowedMove; DuplicateMove].
Proof.
  unfold makeMove. destruct (games !! gameId) as [game|] eqn:Hg.
  2:{ intros [= <- <- <-]. split; [done|]. set_solver. }
  destruct (negb _).
  { intros [= <- <- <-]. split; [done|]. set_solver. }
  destruct (negb _).
  { intros [= <- <- <-]. split; [done|]. set_solver. }
  simpl. destruct (every_tileIsValid _) as [[|]|]; [| |done].
  2:{ intros [= <- <- <-]. split; [done|]. set_solver. }
  destruct (moveIsAllowed _ _) as [[|]|]; [| |done].
  2:{ intros [= <- <- <-]. split; [done|]. set_solver. }
  destruct (moveExists _ _) as [[|]|]; [|done..].
  intros [= <- <- <-]. split; [done|]. set_solver.
Qed.

Lemma makeMove_uncaught_inv games gameId body games' :
  makeMove games gameId body = (games', uncaught) → games' = games.
Proof.
  unfold makeMove. repeat (case_match; try done); by intros [= <-].
Qed.

Lemma makeMove_other_inv games gameId body games' :
  (∀ status, makeMove games gameId body ≠ (games', sendStatus status))
  ∧ (∀ status id, makeMove games gameId body ≠ (games', json_gameId status id)).
Proof. split; intros; unfold makeMove; repeat (case_match; try done). Qed.

Lemma error_kind_is_send resp :
  resp ∈ [NotFound; DictionaryMissing; MalformedMove; DisallowedMove; DuplicateMove] →
  ∃ status text, resp = send status text.
Proof.
  intros Hr. repeat (apply elem_of_cons in Hr as [->|Hr]; [by eauto|]).
  by apply elem_of_nil in Hr.
Qed.

Lemma makeMove_response_kind games gameId body :
  (∃ moveId points, snd (makeMove games gameId body) = json_move 201 moveId points)
  ∨ snd (makeMove games gameId body)
    ∈ [NotFound; DictionaryMissing; MalformedMove; DisallowedMove; DuplicateMove]
  ∨ snd (makeMove games gameId body) = uncaught.
Proof.
  destruct (makeMove games gameId body) as [games' resp] eqn:E. simpl.
  destruct resp as [status text|status|status id|status moveId points|].
  - right; left. by apply makeMove_send_inv in E as [_ ?].
  - by destruct (proj1 (makeMove_other_inv games gameId body games') status).
  - by destruct (proj2 (makeMove_other_inv games gameId body games') status id).
  - left. apply makeMove_json_inv in E as (?&?&?&?&?&?&?&?&?&?&->&?&?). eauto.
  - by right; right.
Qed.

(** A response other than [{moveId, points}] leaves [games] as it was. *)
Lemma makeMove_failure games gameId body :
  (∀ status moveId points, snd (makeMove games gameId body) ≠ json_move status moveId points) →
  fst (makeMove games gameId body) = games.
Proof.
  destruct (makeMove games gameId body) as [games' resp] eqn:E. simpl. intros Hr.
  destruct resp as [status text|status|status id|status moveId points|].
  - by apply makeMove_send_inv in E as [-> _].
  - by destruct (proj1 (makeMove_other_inv games gameId body games') status).
  - by destruct (proj2 (makeMove_other_inv games gameId body games') status id).
  - by destruct (Hr status moveId points).
  - by apply makeMove_uncaught_inv in E.
Qed.

(** ** Adjacency and word derivation on integer tiles *)

Lemma isConsecutiveNeighbor_int tiles index (a b : Z) :
  index ≠ 0%nat → tiles !! (index - 1)%nat = Some (VNum a) →
  isConsecutiveNeighbor (VNum b) index tiles
  = Returned ((b - 4 =? a) || (b + 4 =? a) || (b - 1 =? a) || (b + 1 =? a)
              || (b - 3 =? a) || (b + 3 =? a) || (b - 5 =? a) || (b + 5 =? a)).
Proof.
  intros Hi Hlast. unfold isConsecutiveNeighbor.
  destruct (Nat.eqb_spec index 0) as [|_]; [done|].
  rewrite Hlast.
  unfold equals, js_sub, js_add, ToNumber, ToPrimitive, bind, number_of_primitive.
  cbv beta iota. unfold strict_eq.
  rewrite !num_eq_sub_int, !num_eq_add_int. by rewrite !or_else_returned.
Qed.

Lemma board_at_int game (z : Z) :
  1 ≤ z → board_at game (VNum (num_sub z 1)) = board game !! Z.to_nat (z - 1).
Proof.
  intros Hz. unfold board_at, num_sub, num_add, num_neg, int; simpl.
  unfold Qle_bool, Qeq_bool; simpl. rewrite Z.rem_1_r; simpl.
  change (Z.pos (1 * 1)) with 1.
  destruct (Z.leb_spec (0 * 1) ((z * 1 + - (1) * 1) * 1)) as [_|?]; [|lia].
  do 2 f_equal. rewrite Z.div_1_r. lia.
Qed.

Lemma letter_int game (z : Z) :
  1 ≤ z → letter game (VNum z) = Returned (default [] (board game !! Z.to_nat (z - 1))).
Proof.
  intros Hz. unfold letter, js_sub, ToNumber, ToPrimitive, bind, number_of_primitive.
  cbv beta iota. by rewrite board_at_int.
Qed.

Lemma tilesToWord_int (zs : list Z) game :
  Forall (λ z, 1 ≤ z) zs →
  tilesToWord (map (λ z, VNum (int z)) zs) game
  = Returned (toUpperCase (concat
      (map (λ z, default [] (board game !! Z.to_nat (z - 1))) zs))).
Proof.
  intros Hzs. unfold tilesToWord.
  rewrite (map_or_throw_returned _
             (λ tile, default [] (board game !! Z.to_nat (tile_index tile - 1)))).
  - simpl. do 3 f_equal. rewrite map_map. apply map_ext. intros z. simpl.
    by rewrite Z.div_1_r.
  - apply Forall_fmap. eapply Forall_impl; [exact Hzs|]. intros z Hz. simpl.
    cbv beta in Hz. rewrite letter_int by done. by rewrite Z.div_1_r.
Qed.

(** The letter of a tile that passed the check is there to be read, and the
    word of tiles that passed it is formed. *)
Lemma letter_returns game tile :
  tileIsValid tile = Returned true → ∃ c, letter game tile = Returned c.
Proof.
  intros (p & n & _ & Hn & _)%valid_tile_converts.
  unfold letter, js_sub. rewrite Hn. simpl. eauto.
Qed.

Lemma map_or_throw_returns {A B} (f : A → outcome B) l :
  Forall (λ x, ∃ y, f x = Returned y) l → ∃ ys, map_or_throw f l = Returned ys.
Proof.
  induction 1 as [|x l [y Hy] _ [ys IH]]; [by eexists|]. simpl. rewrite Hy, IH. simpl. eauto.
Qed.

Lemma tilesToWord_returns tiles game :
  every_tileIsValid tiles = Returned true → ∃ word, tilesToWord tiles game = Returned word.
Proof.
  intros Hv%every_tileIsValid_true. unfold tilesToWord.
  destruct (map_or_throw_returns (letter game) tiles) as [letters ->]; [|simpl; eauto].
  eapply Forall_impl; [exact Hv|]. intros tile. apply letter_returns.
Qed.

(** On tiles that passed the check the neighbour test returns. *)
Lemma isConsecutiveNeighbor_returns tile index tiles :
  tileIsValid tile = Returned true → ∃ b, isConsecutiveNeighbor tile index tiles = Returned b.
Proof.
  intros (p & n & Hp & Hn & _)%valid_tile_converts. unfold isConsecutiveNeighbor.
  destruct (index =? 0)%nat; [by eexists|].
  unfold equals, js_sub, js_add. rewrite Hp, Hn. unfold bind.
  rewrite !or_else_returned. by eexists.
Qed.

Lemma every_from_returns {A} (f : A → nat → list A → outcome bool) array rest : ∀ index,
  (∀ i x, rest !! i = Some x → ∃ b, f x (index + i)%nat array = Returned b) →
  ∃ b, every_from f array index rest = Returned b.
Proof.
  induction rest as [|y rest IH]; intros index Hf; [by eexists|]. simpl.
  destruct (Hf 0%nat y eq_refl) as [b Hb]. rewrite Nat.add_0_r in Hb. rewrite Hb. simpl.
  destruct b; [|by eexists]. apply IH. intros i x Hx.
  rewrite Nat.add_succ_comm. by apply Hf.
Qed.

Lemma every_isConsecutiveNeighbor_returns tiles :
  every_tileIsValid tiles = Returned true →
  ∃ b, every isConsecutiveNeighbor tiles = Returned b.
Proof.
  intros Hv%every_tileIsValid_true. apply every_from_returns. intros i tile Hi.
  apply isConsecutiveNeighbor_returns. rewrite Forall_lookup in Hv. by apply (Hv i).
Qed.

(** So [moveIsAllowed] returns, and [moveExists] does once the words played
    are formed. *)
Lemma moveIsAllowed_returns tiles game :
  every_tileIsValid tiles = Returned true → ∃ b, moveIsAllowed tiles game = Returned b.
Proof.
  intros Hv. unfold moveIsAllowed.
  destruct (every_isConsecutiveNeighbor_returns tiles Hv) as [b ->].
  destruct (tilesToWord_returns tiles game Hv) as [word ->]. unfold bind.
  rewrite !and_then_returned. by eexists.
Qed.

(** ** The paths through [createGame] and [setGameDict] *)

Lemma setGameDict_not_found games gameId body :
  games !! gameId = None → setGameDict games gameId body = (games, NotFound).
Proof. intros Hg. unfold setGameDict. by rewrite Hg. Qed.

Lemma setGameDict_invalid games gameId game body :
  games !! gameId = Some game → dictIsValid body = false →
  setGameDict games gameId body = (games, InvalidDictionary).
Proof. intros Hg Hv. unfold setGameDict. by rewrite Hg, Hv. Qed.

Lemma setGameDict_attached games gameId game body :
  games !! gameId = Some game → dictIsValid body = true →
  setGameDict games gameId body
  = (<[gameId := {| dict := Some (words_of (elements (field body (str "words"))));
                    board := board game; moves := moves game |}]> games,
     sendStatus 204).
Proof. intros Hg Hv. unfold setGameDict. by rewrite Hg, Hv. Qed.

Lemma createGame_invalid games body :
  boardIsValid body = false → createGame games body = (games, InvalidBoard).
Proof. intros Hv. unfold createGame. by rewrite Hv. Qed.

Lemma createGame_created games body :
  boardIsValid body = true →
  createGame games body
  = (games ++ [ {| dict := None;
                   board := map (λ char, toUpperCase (chars char))
                              (elements (field body (str "board")));
                   moves := [] |} ],
     json_gameId 201 (length games)).
Proof. intros Hv. unfold createGame. by rewrite Hv. Qed.

(** ** What a request does to one game *)

Lemma moves_of_insert games i j game game' :
  games !! i = Some game →
  moves_of (<[i := game']> games) j = if decide (i = j) then moves game' else moves_of games j.
Proof.
  intros Hg. unfold moves_of. case_decide as Hij.
  - subst j. rewrite list_lookup_insert_eq; [done|]. by eapply lookup_lt_Some.
  - by rewrite list_lookup_insert_ne.
Qed.

Lemma moves_of_snoc games game j :
  moves game = [] → moves_of (games ++ [game]) j = moves_of games j.
Proof.
  intros Hm. unfold moves_of.
  destruct (decide (j < length games)%nat) as [Hlt|Hge].
  - by rewrite lookup_app_l.
  - rewrite (lookup_ge_None_2 games j) by lia. simpl.
    destruct (decide (j = length games)) as [->|Hne].
    + rewrite list_lookup_middle; [|done]. simpl. by rewrite Hm.
    + rewrite lookup_ge_None_2; [done|]. rewrite length_app; simpl. lia.
Qed.

(** A request either appends its tiles to the history of the game it
    addresses, answering with the former length as [moveId], or leaves that
    history alone and does not answer with a [moveId] for this game. *)
Lemma handle_history games r gameId games' resp :
  handle games r = (games', resp) →
  (∃ tiles points,
      r = POST_moves gameId (VArr tiles)
      ∧ resp = json_move 201 (length (moves_of games gameId)) points
      ∧ moves_of games' gameId = moves_of games gameId ++ [tiles])
  ∨ (moves_of games' gameId = moves_of games gameId
     ∧ ∀ body status moveId points,
         ¬ (r = POST_moves gameId body ∧ resp = json_move status moveId points)).
Proof.
  destruct r as [body|g body|g body]; simpl.
  - (* createGame *)
    destruct (boardIsValid body) eqn:Hv.
    + rewrite createGame_created by done. intros [= <- <-]. right. split.
      * by apply moves_of_snoc.
      * by intros ? ? ? ? [? ?].
    + rewrite createGame_invalid by done. intros [= <- <-]. right.
      split; [done|]. by intros ? ? ? ? [? ?].
  - (* setGameDict *)
    intros E. right. split; [|by intros ? ? ? ? [? ?]].
    revert E. unfold setGameDict.
    destruct (games !! g) as [game|] eqn:Hg; [|by intros [= <- <-]].
    destruct (negb _); intros [= <- <-]; [done|].
    erewrite moves_of_insert by done. case_decide; [|done].
    subst. unfold moves_of. by rewrite Hg.
  - (* makeMove *)
    destruct resp as [status text|status|status id|status moveId points|].
    + intros E. apply makeMove_send_inv in E as [-> _]. right.
      split; [done|]. by intros ? ? ? ? [? ?].
    + intros E. by destruct (proj1 (makeMove_other_inv games g body games') status).
    + intros E. by destruct (proj2 (makeMove_other_inv games g body games') status id).
    + intros E. apply makeMove_json_inv in E
        as (game & words & tiles & Hg & Hd & -> & _ & _ & _ & -> & -> & -> & ->).
      unfold move_appended. erewrite moves_of_insert by done. simpl.
      case_decide as Hid.
      * subst g. left. exists tiles. eexists. unfold moves_of. rewrite Hg. simpl. done.
      * right. split; [done|]. intros ? ? ? ? [[= ? ?] _]. done.
    + intros E. apply makeMove_uncaught_inv in E as ->. right.
      split; [done|]. by intros ? ? ? ? [? ?].
Qed.

(** ** Runs *)

Lemma run_cons games r rs :
  run games (r :: rs)
  = (fst (run (fst (handle games r)) rs), snd (handle games r) :: snd (run (fst (handle games r)) rs)).
Proof. simpl. destruct (handle games r) as [games1 resp]; simpl. by destruct (run games1 rs). Qed.

Lemma run_app games rs1 rs2 :
  run games (rs1 ++ rs2)
  = (fst (run (fst (run games rs1)) rs2), snd (run games rs1) ++ snd (run (fst (run games rs1)) rs2)).
Proof.
  revert games. induction rs1 as [|r rs1 IH]; intros games.
  - simpl. by destruct (run games rs2).
  - rewrite <- app_comm_cons, !run_cons, IH. reflexivity.
Qed.

(** Over a run the history of a game grows at its end, and the [moveId]s
    handed out for it count up from its length at the start. *)
Lemma run_moveIds rs : ∀ games gameId,
  ∃ new,
    moves_of (fst (run games rs)) gameId = moves_of games gameId ++ new
    ∧ moveIds gameId rs (snd (run games rs)) = seq (length (moves_of games gameId)) (length new).
Proof.
  induction rs as [|r rs IH]; intros games gameId.
  - exists []. simpl. by rewrite app_nil_r.
  - rewrite run_cons. simpl fst; simpl snd.
    destruct (handle games r) as [games1 resp] eqn:E; simpl fst; simpl snd.
    destruct (IH games1 gameId) as (new & Hnew & Hids).
    destruct (handle_history _ _ gameId _ _ E)
      as [(tiles & points & -> & -> & Happ)|[Hsame Hother]].
    + exists (tiles :: new). split.
      * rewrite Hnew, Happ. by rewrite <- app_assoc.
      * simpl. rewrite decide_True by done. rewrite Hids, Happ, length_app. simpl.
        by rewrite Nat.add_1_r.
    + exists new. rewrite Hnew, Hsame. split; [done|].
      rewrite <- Hsame, <- Hids.
      destruct r as [body|g body|g body]; try done.
      destruct resp as [| | |status moveId points|]; try done.
      simpl. case_decide as Hg; [|done]. subst g.
      by destruct (Hother body status moveId points).
Qed.

(** A game stays where it is, with its board, with its dictionary once it
    has one, and with its earlier moves. *)
Lemma handle_preserves games r gameId game :
  games !! gameId = Some game →
  ∃ game', fst (handle games r) !! gameId = Some game'
    ∧ board game' = board game
    ∧ (is_Some (dict game) → is_Some (dict game'))
    ∧ moves game `prefix_of` moves game'.
Proof.
  intros Hg.
  assert (Hlt : (gameId < length games)%nat) by by eapply lookup_lt_Some.
  assert (Hins : ∀ i g0 g1, games !! i = Some g0 →
            board g1 = board g0 → (is_Some (dict g0) → is_Some (dict g1)) →
            moves g0 `prefix_of` moves g1 →
            ∃ game', <[i := g1]> games !! gameId = Some game'
              ∧ board game' = board game
              ∧ (is_Some (dict game) → is_Some (dict game'))
              ∧ moves game `prefix_of` moves game').
  { intros i g0 g1 Hi Hb Hd Hm. destruct (decide (i = gameId)) as [->|Hne].
    - exists g1. rewrite list_lookup_insert_eq by done.
      rewrite Hg in Hi. by injection Hi as <-.
    - exists game. by rewrite list_lookup_insert_ne. }
  destruct r as [body|g body|g body]; simpl.
  - unfold createGame. destruct (negb _); simpl.
    + by exists game.
    + exists game. by rewrite lookup_app_l.
  - unfold setGameDict. destruct (games !! g) as [g0|] eqn:Hg0; [|by exists game].
    destruct (negb _); simpl; [by exists game|].
    apply (Hins g g0); simpl; eauto.
  - destruct (makeMove games g body) as [games' resp] eqn:E; simpl.
    destruct (makeMove_response_kind games g body) as [(moveId & points & Hr)|Hr];
      rewrite E in Hr; simpl in Hr.
    + subst resp. apply makeMove_json_inv in E
        as (g0 & words & tiles & Hg0 & Hd & -> & _ & _ & _ & -> & _).
      apply (Hins g g0); simpl; eauto. by apply prefix_app_r.
    + assert (games' = games) as ->; [|by exists game].
      destruct Hr as [Hr| ->]; [|by apply makeMove_uncaught_inv in E].
      apply error_kind_is_send in Hr as (status & text & ->).
      by apply makeMove_send_inv in E as [-> _].
Qed.

Lemma run_preserves rs : ∀ games gameId game,
  games !! gameId = Some game →
  ∃ game', fst (run games rs) !! gameId = Some game'
    ∧ board game' = board game
    ∧ (is_Some (dict game) → is_Some (dict game'))
    ∧ moves game `prefix_of` moves game'.
Proof.
  induction rs as [|r rs IH]; intros games gameId game Hg.
  - by exists game.
  - rewrite run_cons; simpl fst.
    destruct (handle_preserves games r gameId game Hg) as (game1 & Hg1 & Hb1 & Hd1 & Hm1).
    destruct (IH _ _ _ Hg1) as (game2 & Hg2 & Hb2 & Hd2 & Hm2).
    exists game2. repeat split; [done|congruence|tauto|by etrans].
Qed.

(** The derived word depends on the game through its board only. *)
Lemma letter_board game game' tile :
  board game' = board game → letter game' tile = letter game tile.
Proof. intros Hb. unfold letter, board_at. by rewrite Hb. Qed.

Lemma tilesToWord_board tiles game game' :
  board game' = board game → tilesToWord tiles game' = tilesToWord tiles game.
Proof.
  intros Hb. unfold tilesToWord.
  by rewrite (map_or_throw_ext (letter game') (letter game)) by (intros; by apply letter_board).
Qed.

Lemma words_played_board game game' :
  board game' = board game → moves game' = moves game →
  words_played game' = words_played game.
Proof.
  intros Hb Hm. unfold words_played. rewrite Hm.
  apply map_or_throw_ext. intros move. by apply tilesToWord_board.
Qed.

Lemma Math_pow2_int (e : Z) : 0 ≤ e → num_eq (Math_pow2 e) (int (2 ^ e)) = true.
Proof.
  intros He. unfold Math_pow2, int, num_eq. apply Qeq_bool_iff.
  symmetry. by apply (Zpower_Qpower 2 e).
Qed.

(** What [moveIsAllowed] returning [true] says. *)
Lemma moveIsAllowed_true tiles game :
  moveIsAllowed tiles game = Returned true
  ↔ (3 ≤ length tiles)%nat
    ∧ every isConsecutiveNeighbor tiles = Returned true
    ∧ length tiles = length (Set_of tiles)
    ∧ ∃ word, tilesToWord tiles game = Returned word ∧ dict_has game word = true.
Proof.
  unfold moveIsAllowed. rewrite !and_then_true. split.
  - intros [[[Hlen Hn] Hset] Hw].
    assert (Hlen' : (3 <=? length tiles)%nat = true) by congruence.
    assert (Hset' : (length tiles =? length (Set_of tiles))%nat = true) by congruence.
    apply Nat.leb_le in Hlen'. apply Nat.eqb_eq in Hset'.
    destruct (tilesToWord tiles game) as [word|]; simpl in Hw; [|done].
    injection Hw as Hw. eauto 6.
  - intros (Hlen & Hn & Hset & word & -> & Hw).
    apply Nat.leb_le in Hlen. apply Nat.eqb_eq in Hset.
    rewrite Hlen, Hset. unfold bind. by rewrite Hw.
Qed.

(** A move of fewer than 3 tiles is not allowed, whatever the tiles. *)
Lemma moveIsAllowed_short tiles game :
  (length tiles < 3)%nat → moveIsAllowed tiles game = Returned false.
Proof.
  intros Hlen. unfold moveIsAllowed.
  by destruct (Nat.leb_spec 3 (length tiles)); [lia|].
Qed.

(** What [moveExists] returns on a game whose played words are formed. *)
Lemma moveExists_returned tiles game played word :
  words_played game = Returned played → tilesToWord tiles game = Returned word →
  moveExists tiles game = Returned (bool_decide (word ∈ played)).
Proof. intros Hp Hw. unfold moveExists. by rewrite Hp, Hw. Qed.

Lemma moveExists_inv tiles game b :
  moveExists tiles game = Returned b →
  ∃ played word, words_played game = Returned played ∧ tilesToWord tiles game = Returned word
                 ∧ b = bool_decide (word ∈ played).
Proof.
  unfold moveExists. destruct (words_played game) as [played|]; simpl; [|done].
  destruct (tilesToWord tiles game) as [word|]; simpl; [|done].
  intros [= <-]. eauto.
Qed.

(** ** Sets of tiles *)

Lemma Set_of_bound l : ∀ seen,
  (length (foldl Set_add seen l) ≤ length seen + length l)%nat.
Proof.
  induction l as [|x l IH]; intros seen; simpl; [lia|].
  specialize (IH (Set_add seen x)). unfold Set_add in *.
  destruct (existsb _ seen); [lia|]. rewrite length_app in IH. simpl in IH. lia.
Qed.

(** When the set is as large as the array, no element equals an earlier one. *)
Lemma Set_of_full l : ∀ seen,
  length (foldl Set_add seen l) = (length seen + length l)%nat →
  ∀ l1 x l2, l = l1 ++ x :: l2 → existsb (SameValueZero x) (seen ++ l1) = false.
Proof.
  induction l as [|x l IH]; intros seen Hlen l1 y l2 Hl.
  - by destruct l1.
  - change (length (foldl Set_add (Set_add seen x) l) = (length seen + S (length l))%nat) in Hlen.
    pose proof (Set_of_bound l (Set_add seen x)) as Hb.
    destruct (existsb (SameValueZero x) seen) eqn:Hx.
    { assert (Hs : Set_add seen x = seen) by (unfold Set_add; by rewrite Hx).
      rewrite Hs in Hb, Hlen. lia. }
    assert (Hs : Set_add seen x = seen ++ [x]) by (unfold Set_add; by rewrite Hx).
    rewrite Hs in Hlen.
    destruct l1 as [|x' l1]; injection Hl as <- ->.
    + by rewrite app_nil_r.
    + replace (seen ++ x :: l1) with ((seen ++ [x]) ++ l1) by (by rewrite <- app_assoc).
      eapply IH; [|done]. rewrite Hlen, (length_app seen [x]). simpl. lia.
Qed.

Lemma tile_index_valid (tile : value) :
  is_number tile = true → tileIsValid tile = Returned true →
  ∃ q, tile = VNum (Fin q) ∧ (q == inject_Z (tile_index tile))%Q ∧ 1 ≤ tile_index tile ≤ 16.
Proof.
  destruct tile as [| |[| |q]| | |]; try done. intros _ Hv. exists q. split; [done|].
  apply tileIsValid_number in Hv as (z & Hq & Hz).
  assert (Hidx : tile_index (VNum (Fin q)) = z).
  { simpl. destruct q as [n d]. unfold Qeq in Hq; simpl in *.
    rewrite Z.mul_1_r in Hq. subst n. by rewrite Z.div_mul. }
  by rewrite Hidx.
Qed.

(** ** The board check *)

Lemma field_here name v rest : field (VObj ((name, v) :: rest)) name = Some v.
Proof. unfold field. cbn [find fst]. by rewrite bool_decide_eq_true_2 by done. Qed.

Lemma strings_of_inj (cs ds : list jsstring) :
  Some (strings_of cs) = Some (strings_of ds) → cs = ds.
Proof.
  unfold strings_of. intros [= Heq]. revert ds Heq.
  induction cs as [|c cs IH]; intros [|d ds]; simpl; try done.
  intros [= -> Heq]. f_equal. by apply IH.
Qed.

Lemma all_strings (l : list value) :
  forallb (λ char, is_string char && (length (chars char) =? 1)%nat) l = true
  ↔ ∃ cs, l = map VStr cs ∧ Forall (λ c, length c = 1%nat) cs.
Proof.
  induction l as [|v l IH]; simpl.
  - split; [|done]. intros _. exists []. by split.
  - rewrite !andb_true_iff, IH. split.
    + intros [[Hs Hlen] (cs & -> & Hcs)]. destruct v as [| | |c| |]; try done.
      exists (c :: cs). split; [done|]. constructor; [|done]. by apply Nat.eqb_eq.
    + intros (cs & Hl & Hcs). destruct cs as [|c cs]; [done|].
      injection Hl as -> ->. inversion_clear Hcs as [|? ? Hc Hcs'].
      repeat split; [by apply Nat.eqb_eq|]. by exists cs.
Qed.

Lemma boardIsValid_iff body :
  boardIsValid body = true
  ↔ ∃ cs, field body (str "board") = Some (strings_of cs) ∧ length cs = 16%nat
          ∧ Forall (λ c, length c = 1%nat) cs.
Proof.
  unfold boardIsValid, strings_of. rewrite !andb_true_iff, all_strings. split.
  - intros [[[_ Harr] Hlen] (cs & Hcs & Hall)].
    destruct (field body (str "board")) as [[| | | |elems|]|]; try done. simpl in *.
    subst elems. exists cs. rewrite length_map in Hlen. apply Nat.eqb_eq in Hlen. done.
  - intros (cs & -> & Hlen & Hall). simpl. repeat split.
    + rewrite length_map. by apply Nat.eqb_eq.
    + by exists cs.
Qed.

(** ** The dictionary check *)

Lemma dictIsValid_iff body :
  dictIsValid body = true ↔ ∃ ws, field body (str "words") = Some (strings_of ws).
Proof.
  unfold dictIsValid, strings_of. rewrite !andb_true_iff. split.
  - intros [[_ Harr] Hall].
    destruct (field body (str "words")) as [[| | | |elems|]|]; try done. simpl in Hall.
    clear Harr. induction elems as [|v elems IH]; [by exists []|].
    simpl in Hall. apply andb_true_iff in Hall as [Hv Hall].
    destruct v as [| | |w| |]; try done.
    destruct (IH Hall) as (ws & [= ->]). by exists (w :: ws).
  - intros (ws & ->). simpl. repeat split.
    apply forallb_forall. by intros v (w & <- & _)%in_map_iff.
Qed.

Lemma words_of_strings (ws : list jsstring) :
  words_of (map VStr ws) = list_to_set (map toUpperCase ws).
Proof.
  unfold words_of.
  assert (Hgen : ∀ acc : gset jsstring,
            foldl (λ dict word, {[ toUpperCase (chars word) ]} ∪ dict) acc (map VStr ws)
            = list_to_set (map toUpperCase ws) ∪ acc).
  { induction ws as [|w ws IH]; intros acc; simpl.
    - set_solver.
    - rewrite IH. set_solver. }
  rewrite Hgen. set_solver.
Qed.

(** What a request does to the words played in a game: the words played
    stay, at the front. *)
Lemma handle_words_played games r gameId game played :
  games !! gameId = Some game → words_played game = Returned played →
  ∃ game' more, fst (handle games r) !! gameId = Some game'
    ∧ board game' = board game
    ∧ (is_Some (dict game) → is_Some (dict game'))
    ∧ words_played game' = Returned (played ++ more).
Proof.
  intros Hg Hp.
  assert (Hlt : (gameId < length games)%nat) by by eapply lookup_lt_Some.
  assert (Hsame : ∃ game' more, games !! gameId = Some game'
            ∧ board game' = board game
            ∧ (is_Some (dict game) → is_Some (dict game'))
            ∧ words_played game' = Returned (played ++ more)).
  { exists game, []. by rewrite app_nil_r. }
  destruct r as [body|g body|g body]; simpl.
  - unfold createGame. destruct (negb _); simpl; [done|].
    exists game, []. rewrite app_nil_r. by rewrite lookup_app_l.
  - unfold setGameDict. destruct (games !! g) as [g0|] eqn:Hg0; [|done].
    destruct (negb _); simpl; [done|].
    destruct (decide (g = gameId)) as [->|Hne].
    + rewrite Hg in Hg0. injection Hg0 as <-.
      eexists _, []. rewrite list_lookup_insert_eq by done. rewrite app_nil_r.
      split; [done|]. split; [done|]. split; [by eauto|].
      by rewrite <- Hp; apply words_played_board.
    + exists game, []. rewrite app_nil_r. by rewrite list_lookup_insert_ne.
  - destruct (makeMove games g body) as [games' resp] eqn:E; simpl.
    destruct (makeMove_response_kind games g body) as [(moveId & points & Hr)|Hr];
      rewrite E in Hr; simpl in Hr.
    + subst resp. apply makeMove_json_inv in E
        as (g0 & words & tiles & Hg0 & Hd & -> & _ & _ & He & -> & _).
      unfold move_appended. destruct (decide (g = gameId)) as [->|Hne].
      * rewrite Hg in Hg0. injection Hg0 as <-.
        apply moveExists_inv in He as (played' & word & Hp' & Hw & _).
        rewrite Hp in Hp'. injection Hp' as <-.
        eexists _, [word]. rewrite list_lookup_insert_eq by done.
        split; [done|]. split; [done|]. split; [done|].
        unfold words_played. simpl. apply map_or_throw_app.
        -- rewrite <- Hp. unfold words_played. apply map_or_throw_ext.
           intros move. by apply tilesToWord_board.
        -- simpl. rewrite (tilesToWord_board tiles game) by done. by rewrite Hw.
      * exists game, []. rewrite app_nil_r. by rewrite list_lookup_insert_ne.
    + assert (games' = games) as ->; [|done].
      destruct Hr as [Hr| ->]; [|by apply makeMove_uncaught_inv in E].
      apply error_kind_is_send in Hr as (status & text & ->).
      by apply makeMove_send_inv in E as [-> _].
Qed.

Lemma run_words_played rs : ∀ games gameId game played,
  games !! gameId = Some game → words_played game = Returned played →
  ∃ game' more, fst (run games rs) !! gameId = Some game'
    ∧ board game' = board game
    ∧ (is_Some (dict game) → is_Some (dict game'))
    ∧ words_played game' = Returned (played ++ more).
Proof.
  induction rs as [|r rs IH]; intros games gameId game played Hg Hp.
  - exists game, []. by rewrite app_nil_r.
  - rewrite run_cons; simpl fst.
    destruct (handle_words_played games r gameId game played Hg Hp)
      as (game1 & more1 & Hg1 & Hb1 & Hd1 & Hp1).
    destruct (IH _ _ _ _ Hg1 Hp1) as (game2 & more2 & Hg2 & Hb2 & Hd2 & Hp2).
    exists game2, (more1 ++ more2). rewrite app_assoc.
    repeat split; [done|congruence|tauto|done].
Qed.

(** * The claims *)

(** C2.  Two consecutive tile indices pass the neighbour check exactly when
    they differ by 1, 3, 4 or 5 in either direction; rows play no part, so
    that 4 and 5 are neighbours.  The path 6, 1, 2 passes the check and the
    path 12, 15, 1, 4 fails it: the check reads neither the board nor the
    dictionary, and for every game with a dictionary the second path is
    answered with DisallowedMove while the first is allowed exactly when its
    word is in the dictionary. *)
Theorem adjacency_by_offset :
  (∀ tiles index (a b : Z),
     1 ≤ a ≤ 16 → 1 ≤ b ≤ 16 → index ≠ 0%nat → tiles !! (index - 1)%nat = Some (VNum a) →
     isConsecutiveNeighbor (VNum b) index tiles = Returned true
     ↔ b - a ∈ [1; -1; 3; -3; 4; -4; 5; -5])
  ∧ (∀ tile tiles, isConsecutiveNeighbor tile 0 tiles = Returned true)
  ∧ isConsecutiveNeighbor (VNum 5) 1 [VNum 4; VNum 5] = Returned true
  ∧ every isConsecutiveNeighbor (elements (Some (tiles_of [6; 1; 2]))) = Returned true
  ∧ every isConsecutiveNeighbor (elements (Some (tiles_of [12; 15; 1; 4]))) = Returned false
  ∧ (∀ game, moveIsAllowed (elements (Some (tiles_of [6; 1; 2]))) game
             = let* word := tilesToWord (elements (Some (tiles_of [6; 1; 2]))) game in
               Returned (dict_has game word))
  ∧ (∀ game, moveIsAllowed (elements (Some (tiles_of [12; 15; 1; 4]))) game = Returned false)
  ∧ (∀ games gameId game words, games !! gameId = Some game → dict game = Some words →
       makeMove games gameId (tiles_of [12; 15; 1; 4]) = (games, DisallowedMove)).
Proof.
  assert (Hbad : ∀ game,
            moveIsAllowed (elements (Some (tiles_of [12; 15; 1; 4]))) game = Returned false).
  { intros game. unfold moveIsAllowed.
    by replace (every isConsecutiveNeighbor (elements (Some (tiles_of [12; 15; 1; 4]))))
      with (Returned false) by (by vm_compute). }
  split.
  { intros tiles index a b Ha Hb Hi Hlast.
    rewrite (isConsecutiveNeighbor_int tiles index a b Hi Hlast).
    assert (Hinj : ∀ x : bool, Returned x = Returned true ↔ x = true)
      by (intros x; split; [by intros [= ->]|by intros ->]).
    rewrite Hinj, !orb_true_iff, !Z.eqb_eq, !elem_of_cons, elem_of_nil. lia. }
  split; [done|]. split; [by vm_compute|].
  split; [by vm_compute|]. split; [by vm_compute|].
  split.
  { intros game. unfold moveIsAllowed.
    replace (every isConsecutiveNeighbor (elements (Some (tiles_of [6; 1; 2]))))
      with (Returned true) by (by vm_compute).
    replace (Nat.eqb (length (elements (Some (tiles_of [6; 1; 2]))))
                     (length (Set_of (elements (Some (tiles_of [6; 1; 2]))))))
      with true by (by vm_compute).
    reflexivity. }
  split; [exact Hbad|].
  intros games gameId game words Hg Hd. eapply makeMove_disallowed; [done..| |apply Hbad].
  by vm_compute.
Qed.

(** C3.  For a game with a dictionary and tiles that pass the shape check,
    the word is derived, the move is accepted only if the derived word is in
    the dictionary, and a derived word that is not in the dictionary is
    answered with DisallowedMove.  The derived word is the upper-cased
    concatenation, in path order, of the board letters at the tiles, counted
    from 1. *)
Theorem accepted_word_in_dictionary games gameId game words tiles :
  games !! gameId = Some game → dict game = Some words →
  every_tileIsValid tiles = Returned true →
  ∃ word, tilesToWord tiles game = Returned word
  ∧ (∀ games' status moveId points,
      makeMove games gameId (VArr tiles) = (games', json_move status moveId points) →
      word ∈ words)
  ∧ (word ∉ words →
     makeMove games gameId (VArr tiles) = (games, DisallowedMove))
  ∧ (∀ zs : list Z, tiles = map (λ z, VNum (int z)) zs →
     word
     = toUpperCase (concat
         (map (λ z, default [] (board game !! Z.to_nat (z - 1))) zs))).
Proof.
  intros Hg Hd Hv. destruct (tilesToWord_returns tiles game Hv) as [word Hword].
  exists word. split; [done|]. repeat split.
  - intros games' status moveId points
      (game' & words' & tiles' & Hg' & Hd' & [= <-] & _ & Ha & _)%makeMove_json_inv.
    rewrite Hg in Hg'. injection Hg' as <-.
    apply moveIsAllowed_true in Ha as (_ & _ & _ & word' & Hword' & Ha).
    rewrite Hword in Hword'. injection Hword' as <-.
    unfold dict_has in Ha. rewrite Hd in Ha. by apply bool_decide_eq_true in Ha.
  - intros Hw. eapply makeMove_disallowed; [done..|].
    destruct (moveIsAllowed_returns tiles game Hv) as [[|] Ha]; [|done].
    apply moveIsAllowed_true in Ha as (_ & _ & _ & word' & Hword' & Ha).
    rewrite Hword in Hword'. injection Hword' as <-.
    unfold dict_has in Ha. rewrite Hd in Ha. by apply bool_decide_eq_true in Ha.
  - intros zs ->. rewrite tilesToWord_int in Hword; [by injection Hword as <-|].
    apply every_tileIsValid_true in Hv. apply Forall_fmap in Hv.
    eapply Forall_impl; [exact Hv|]. intros z Hz. simpl in Hz.
    rewrite tileIsValid_int in Hz. injection Hz as Hz. lia.
Qed.

(** C4.  Once a move has been accepted in a game, whatever requests follow,
    a submission to that game whose tiles derive the same word is never
    accepted; when it passes the shape check and the rules, it is answered
    with DuplicateMove.  The path it takes does not matter. *)
Theorem repeated_word_is_duplicate games0 gameId m1 games1 status moveId points rs tiles :
  makeMove games0 gameId (VArr m1) = (games1, json_move status moveId points) →
  ∃ game1 game2,
    games1 !! gameId = Some game1
    ∧ fst (run games1 rs) !! gameId = Some game2
    ∧ (tilesToWord tiles game2 = tilesToWord m1 game1 →
       (∀ games3 status' moveId' points',
           makeMove (fst (run games1 rs)) gameId (VArr tiles)
           ≠ (games3, json_move status' moveId' points'))
       ∧ (every_tileIsValid tiles = Returned true → moveIsAllowed tiles game2 = Returned true →
          makeMove (fst (run games1 rs)) gameId (VArr tiles)
          = (fst (run games1 rs), DuplicateMove))).
Proof.
  intros (game0 & words & ? & Hg0 & Hd & [= <-] & _ & _ & He0 & -> & _)%makeMove_json_inv.
  apply moveExists_inv in He0 as (played0 & word1 & Hp0 & Hw1 & _).
  set (game1 := {| dict := dict game0; board := board game0; moves := moves game0 ++ [m1] |}).
  assert (Hg1 : move_appended games0 gameId game0 m1 !! gameId = Some game1).
  { unfold move_appended. apply list_lookup_insert_eq. by eapply lookup_lt_Some. }
  assert (Hw1' : tilesToWord m1 game1 = Returned word1).
  { by rewrite (tilesToWord_board m1 game0 game1). }
  assert (Hp1 : words_played game1 = Returned (played0 ++ [word1])).
  { unfold words_played. simpl. apply map_or_throw_app.
    - rewrite <- Hp0. apply map_or_throw_ext. intros move. by apply tilesToWord_board.
    - simpl. by rewrite Hw1'. }
  destruct (run_words_played rs _ _ _ _ Hg1 Hp1) as (game2 & more & Hg2 & Hb & Hdict & Hp2).
  exists game1, game2. split; [done|]. split; [done|]. intros Hw.
  rewrite Hw1' in Hw.
  assert (He : moveExists tiles game2 = Returned true).
  { rewrite (moveExists_returned tiles game2 _ word1 Hp2 Hw). f_equal.
    apply bool_decide_eq_true. set_solver. }
  destruct Hdict as [words2 Hd2]; [simpl; by rewrite Hd|].
  split.
  - intros games3 status' moveId' points'
      (g & ? & ? & Hg & _ & [= <-] & _ & _ & He' & _)%makeMove_json_inv.
    rewrite Hg2 in Hg. injection Hg as <-. congruence.
  - intros Hv Ha. by eapply makeMove_duplicate.
Qed.

(** C5.  The points returned for an accepted move are 2 to the power of the
    length of its path minus 3; the path has at least 3 tiles.  A move is
    accepted, and scores these points, whenever the game has a dictionary,
    the tiles pass the shape check and the rules, and the word is new. *)
Theorem points_power_of_two games gameId body :
  (∀ games' status moveId points,
     makeMove games gameId body = (games', json_move status moveId points) →
     ∃ tiles, body = VArr tiles ∧ (3 ≤ length tiles)%nat
       ∧ num_eq points (int (2 ^ (Z.of_nat (length tiles) - 3))) = true
       ∧ (length tiles = 3%nat → num_eq points 1 = true)
       ∧ (length tiles = 4%nat → num_eq points 2 = true)
       ∧ (length tiles = 5%nat → num_eq points 4 = true)
       ∧ (length tiles = 6%nat → num_eq points 8 = true))
  ∧ (∀ game words tiles,
       games !! gameId = Some game → dict game = Some words → body = VArr tiles →
       every_tileIsValid tiles = Returned true → moveIsAllowed tiles game = Returned true →
       moveExists tiles game = Returned false →
       ∃ points,
         makeMove games gameId body
         = (move_appended games gameId game tiles, json_move 201 (length (moves game)) points)
         ∧ num_eq points (int (2 ^ (Z.of_nat (length tiles) - 3))) = true).
Proof.
  split.
  - intros games' status moveId points
      (game & words & tiles & _ & _ & -> & _ & Ha & _ & _ & _ & _ & ->)%makeMove_json_inv.
    exists tiles. split; [done|].
    apply moveIsAllowed_true in Ha as (Hlen & _).
    split; [done|]. split; [apply Math_pow2_int; lia|].
    repeat split; intros ->; reflexivity.
  - intros game words tiles Hg Hd -> Hv Ha He. eexists. split.
    + by eapply makeMove_accepted.
    + apply moveIsAllowed_true in Ha as (Hlen & _). apply Math_pow2_int. lia.
Qed.

(** C6.  [createGame] succeeds exactly when the body has a field [board]
    holding an array of exactly 16 strings of length 1, the length of a
    string being the number of its UTF-16 code units; the game it stores has
    every one of these characters in upper case, no dictionary and no move,
    and is numbered by its position.  Any other body is answered with
    InvalidBoard. *)
Theorem createGame_board_validation games body :
  (∀ cs, field body (str "board") = Some (strings_of cs) → length cs = 16%nat →
         Forall (λ c, length c = 1%nat) cs →
         createGame games body
         = (games ++ [ {| dict := None; board := map toUpperCase cs; moves := [] |} ],
            json_gameId 201 (length games)))
  ∧ (¬ (∃ cs, field body (str "board") = Some (strings_of cs) ∧ length cs = 16%nat
              ∧ Forall (λ c, length c = 1%nat) cs) →
     createGame games body = (games, InvalidBoard)).
Proof.
  split.
  - intros cs Hf Hlen Hall. rewrite createGame_created.
    + rewrite Hf. simpl. by rewrite map_map.
    + apply boardIsValid_iff. by exists cs.
  - intros Hno. apply createGame_invalid. apply not_true_is_false.
    by rewrite boardIsValid_iff.
Qed.

(** C8.  A request answered with an error leaves every game as it was: a
    submission answered with NotFound, DictionaryMissing, MalformedMove,
    DisallowedMove or DuplicateMove, an attachment answered with NotFound or
    InvalidDictionary, a creation answered with InvalidBoard.  So does a
    submission on which the controller throws.  These are the only answers
    besides the three successes, and the same holds when the game is named
    by its route parameter. *)
Theorem failure_leaves_state games gameId body :
  (snd (makeMove games gameId body)
     ∈ [NotFound; DictionaryMissing; MalformedMove; DisallowedMove; DuplicateMove] →
   fst (makeMove games gameId body) = games)
  ∧ (snd (setGameDict games gameId body) ∈ [NotFound; InvalidDictionary] →
     fst (setGameDict games gameId body) = games)
  ∧ (snd (createGame games body) = InvalidBoard → fst (createGame games body) = games)
  ∧ (snd (makeMove games gameId body) = uncaught → fst (makeMove games gameId body) = games)
  ∧ ((∃ moveId points, snd (makeMove games gameId body) = json_move 201 moveId points)
     ∨ snd (makeMove games gameId body)
       ∈ [NotFound; DictionaryMissing; MalformedMove; DisallowedMove; DuplicateMove]
     ∨ snd (makeMove games gameId body) = uncaught)
  ∧ (snd (setGameDict games gameId body) = sendStatus 204
     ∨ snd (setGameDict games gameId body) ∈ [NotFound; InvalidDictionary])
  ∧ (snd (createGame games body) = json_gameId 201 (length games)
     ∨ snd (createGame games body) = InvalidBoard)
  ∧ (∀ name games' resp, makeMove_route games name body = Some (games', resp) →
       (∀ status moveId points, resp ≠ json_move status moveId points) → games' = games)
  ∧ (∀ name games' resp, setGameDict_route games name body = Some (games', resp) →
       resp ∈ [NotFound; InvalidDictionary] → games' = games).
Proof.
  assert (Hattach : ∀ index, snd (setGameDict games index body) ∈ [NotFound; InvalidDictionary] →
            fst (setGameDict games index body) = games).
  { intros index. unfold setGameDict. destruct (games !! index) as [game|]; [|done].
    destruct (negb _); [done|]. simpl. intros Hr.
    repeat (apply elem_of_cons in Hr as [Hr|Hr]; [done|]). by apply elem_of_nil in Hr. }
  split; [|split; [|split; [|split; [|split; [|split; [|split; [|split]]]]]]].
  - intros (status & text & Hr)%error_kind_is_send.
    destruct (makeMove games gameId body) as [games' resp] eqn:E. simpl in *. subst resp.
    by apply makeMove_send_inv in E as [-> _].
  - apply Hattach.
  - unfold createGame. by destruct (negb _).
  - destruct (makeMove games gameId body) as [games' resp] eqn:E. simpl. intros ->.
    by apply makeMove_uncaught_inv in E.
  - apply makeMove_response_kind.
  - unfold setGameDict. destruct (games !! gameId) as [game|]; simpl.
    + destruct (negb _); simpl; [right|by left]. apply elem_of_cons; right. apply elem_of_cons; by left.
    + right. apply elem_of_cons; by left.
  - unfold createGame. destruct (negb _); simpl; [by right|by left].
  - intros name games' resp. unfold makeMove_route.
    destruct (games_at name) as [[index| |]|]; simpl; [| | |done].
    + intros [= E] Hr. pose proof (makeMove_failure games index body) as Hf.
      rewrite E in Hf. simpl in Hf. by apply Hf.
    + by destruct (length games =? 0)%nat; intros [= <- <-].
    + by intros [= <- <-].
  - intros name games' resp. unfold setGameDict_route.
    destruct (games_at name) as [[index| |]|]; simpl; [| | |done].
    + intros [= E] Hr. pose proof (Hattach index) as Hf.
      rewrite E in Hf. simpl in Hf. by rewrite Hf.
    + destruct (length games =? 0)%nat; [by intros [= <- <-]|].
      by destruct (negb _); intros [= <- <-].
    + by intros [= <- <-].
Qed.

(** C9.  From the start of the server and over any sequence of requests, the
    [moveId]s returned for a game are 0, 1, 2, ... in the order of
    acceptance, as many as the game has moves in the end.  A request changes
    the history of a game only when it is a submission to that game that is
    accepted, and then it appends its tiles to the history and returns the
    former length; and a submission that passes every check is accepted. *)
Theorem moveIds_sequential rs gameId :
  moveIds gameId rs (snd (run [] rs)) = seq 0 (length (moves_of (fst (run [] rs)) gameId))
  ∧ (∀ games, ∃ new,
       moves_of (fst (run games rs)) gameId = moves_of games gameId ++ new
       ∧ moveIds gameId rs (snd (run games rs))
         = seq (length (moves_of games gameId)) (length new))
  ∧ (∀ games r,
       (∃ tiles points,
           r = POST_moves gameId (VArr tiles)
           ∧ snd (handle games r) = json_move 201 (length (moves_of games gameId)) points
           ∧ moves_of (fst (handle games r)) gameId = moves_of games gameId ++ [tiles])
       ∨ (moves_of (fst (handle games r)) gameId = moves_of games gameId
          ∧ ∀ body status moveId points,
              ¬ (r = POST_moves gameId body
                 ∧ snd (handle games r) = json_move status moveId points)))
  ∧ (∀ games game words tiles,
       games !! gameId = Some game → dict game = Some words →
       every_tileIsValid tiles = Returned true → moveIsAllowed tiles game = Returned true →
       moveExists tiles game = Returned false →
       ∃ points,
         snd (handle games (POST_moves gameId (VArr tiles)))
         = json_move 201 (length (moves_of games gameId)) points
         ∧ moves_of (fst (handle games (POST_moves gameId (VArr tiles)))) gameId
           = moves_of games gameId ++ [tiles]).
Proof.
  split; [|split; [|split]].
  - destruct (run_moveIds rs [] gameId) as (new & Hnew & Hids).
    rewrite Hids, Hnew. reflexivity.
  - intros games. apply run_moveIds.
  - intros games r. apply handle_history. by destruct (handle games r).
  - intros games game words tiles Hg Hd Hv Ha He. eexists. cbn [handle].
    rewrite (makeMove_accepted games gameId game words tiles) by done. cbn [fst snd].
    unfold move_appended. erewrite moves_of_insert by done. rewrite decide_True by done.
    unfold moves_of. rewrite Hg. simpl. by split.
Qed.

(** X1.  Moves made of numbers.  An accepted move whose elements are all numbers
    is a path of pairwise distinct integers from 1 to 16; it has between 3
    and 16 tiles, and its points are a power of two from 1 to 8192. *)
Theorem number_moves_are_distinct_indices games gameId tiles games' status moveId points :
  makeMove games gameId (VArr tiles) = (games', json_move status moveId points) →
  forallb is_number tiles = true →
  Forall (λ tile, ∃ z : Z, 1 ≤ z ≤ 16 ∧ ∃ q, tile = VNum (Fin q) ∧ (q == inject_Z z)%Q) tiles
  ∧ NoDup (map tile_index tiles)
  ∧ (3 ≤ length tiles ≤ 16)%nat
  ∧ ∃ k, 0 ≤ k ≤ 13 ∧ num_eq points (int (2 ^ k)) = true ∧ 1 ≤ 2 ^ k ≤ 8192.
Proof.
  intros (game & words & ? & _ & _ & [= <-] & Hv & Ha & _ & _ & _ & _ & ->)%makeMove_json_inv Hnum.
  apply moveIsAllowed_true in Ha as (Hlen & _ & Hset & _).
  apply every_tileIsValid_true in Hv. rewrite Forall_forall in Hv.
  rewrite forallb_forall in Hnum.
  assert (Hidx : ∀ tile, tile ∈ tiles →
            ∃ q, tile = VNum (Fin q) ∧ (q == inject_Z (tile_index tile))%Q
                 ∧ 1 ≤ tile_index tile ≤ 16).
  { intros tile Hin. apply tile_index_valid; [|by auto].
    by apply Hnum, list_elem_of_In. }
  assert (Hsame : ∀ i j p q, (i < j)%nat → tiles !! i = Some (VNum (Fin p)) →
            tiles !! j = Some (VNum (Fin q)) → ¬ (p == q)%Q).
  { intros i j p q Hij Hi Hj Hpq.
    apply take_drop_middle in Hj.
    pose proof (Set_of_full tiles [] (eq_sym Hset) _ _ _ (eq_sym Hj)) as Hfresh.
    simpl in Hfresh.
    assert (Hex : existsb (SameValueZero (VNum (Fin q))) (take j tiles) = true).
    { apply existsb_exists. exists (VNum (Fin p)). split.
      - apply list_elem_of_In. apply list_elem_of_lookup. exists i.
        by rewrite lookup_take_lt.
      - simpl. apply Qeq_bool_iff. by symmetry. }
    congruence. }
  assert (Hnodup : NoDup (map tile_index tiles)).
  { apply NoDup_alt. intros i j z Hi Hj.
    rewrite list_lookup_fmap in Hi, Hj.
    destruct (tiles !! i) as [a|] eqn:Ha; [|done].
    destruct (tiles !! j) as [b|] eqn:Hb; [|done].
    simpl in Hi, Hj. injection Hi as Hi. injection Hj as Hj.
    destruct (Hidx a) as (p & -> & Hp & _); [by eapply list_elem_of_lookup_2|].
    destruct (Hidx b) as (q & -> & Hq & _); [by eapply list_elem_of_lookup_2|].
    destruct (Nat.lt_total i j) as [Hlt|[Heq|Hgt]]; [|done|].
    - exfalso. apply (Hsame i j p q Hlt Ha Hb). rewrite Hp, Hq. by rewrite Hi, Hj.
    - exfalso. apply (Hsame j i q p Hgt Hb Ha). rewrite Hp, Hq. by rewrite Hi, Hj. }
  assert (Hle : (length tiles ≤ 16)%nat).
  { rewrite <- (length_map tile_index tiles).
    change 16%nat with (length (seqZ 1 16)).
    apply submseteq_length, NoDup_submseteq; [done|].
    intros z (tile & -> & Hin)%list_elem_of_fmap.
    destruct (Hidx tile Hin) as (_ & _ & _ & Hz). apply elem_of_seqZ. lia. }
  split.
  { apply Forall_forall. intros tile Hin.
    destruct (Hidx tile Hin) as (q & -> & Hq & Hz). eauto. }
  split; [done|]. split; [lia|].
  exists (Z.of_nat (length tiles) - 3). split; [lia|]. split; [apply Math_pow2_int; lia|].
  split.
  - apply (Z.pow_le_mono_r 2 0); lia.
  - change 8192 with (2 ^ 13). apply Z.pow_le_mono_r; lia.
Qed.

(** X2.  Attaching a dictionary.  For a game that exists, [setGameDict] succeeds
    exactly when the body has a field [words] holding an array of strings,
    of any length; the game then has the set of these words in upper case as
    its dictionary, in place of the one it had, and keeps its board and its
    moves.  Any other body is answered with InvalidDictionary. *)
Theorem setGameDict_attach games gameId game body :
  games !! gameId = Some game →
  (∀ ws, field body (str "words") = Some (strings_of ws) →
     setGameDict games gameId body
     = (<[gameId := {| dict := Some (list_to_set (map toUpperCase ws));
                       board := board game; moves := moves game |}]> games,
        sendStatus 204))
  ∧ (¬ (∃ ws, field body (str "words") = Some (strings_of ws)) →
     setGameDict games gameId body = (games, InvalidDictionary)).
Proof.
  intros Hg. split.
  - intros ws Hf. rewrite (setGameDict_attached _ _ game) by (by rewrite ?dictIsValid_iff; eauto).
    rewrite Hf. simpl. by rewrite words_of_strings.
  - intros Hno. eapply setGameDict_invalid; [done|].
    apply not_true_is_false. by rewrite dictIsValid_iff.
Qed.

(** X15.  The shape check.  For a game that exists and has a dictionary, a
    body that is not an array is answered with MalformedMove.  The tiles of
    an array are checked in order: when the first tile that does not pass
    fails the check, the answer is MalformedMove; when the check throws on
    it, the controller throws, and nothing after that tile is looked at.
    Among the numbers exactly the integers from 1 to 16 pass; the check of a
    number never throws, and [null] fails it.  The length is not part of the
    check: an array of fewer than 3 tiles that all pass is answered with
    DisallowedMove. *)
Theorem shape_check_answers games gameId game words :
  games !! gameId = Some game → dict game = Some words →
  (∀ body, Array_isArray (Some body) = false →
     makeMove games gameId body = (games, MalformedMove))
  ∧ (∀ pre tile post,
       Forall (λ t, tileIsValid t = Returned true) pre → tileIsValid tile = Returned false →
       makeMove games gameId (VArr (pre ++ tile :: post)) = (games, MalformedMove))
  ∧ (∀ pre tile post,
       Forall (λ t, tileIsValid t = Returned true) pre → tileIsValid tile = Threw →
       makeMove games gameId (VArr (pre ++ tile :: post)) = (games, uncaught))
  ∧ (∀ n, tileIsValid (VNum n) = Returned true
          ↔ ∃ (q : Q) (z : Z), n = Fin q ∧ (q == inject_Z z)%Q ∧ 1 ≤ z ≤ 16)
  ∧ (∀ n, ∃ b, tileIsValid (VNum n) = Returned b)
  ∧ tileIsValid VNull = Returned false
  ∧ (∀ tiles, every_tileIsValid tiles = Returned true → (length tiles < 3)%nat →
     makeMove games gameId (VArr tiles) = (games, DisallowedMove)).
Proof.
  intros Hg Hd.
  assert (Hstop : ∀ pre tile post o,
            Forall (λ t, tileIsValid t = Returned true) pre → tileIsValid tile = o →
            o ≠ Returned true →
            every_tileIsValid (pre ++ tile :: post)
            = match o with Returned _ => Returned false | Threw => Threw end).
  { intros pre tile post o Hpre Ho Hne. unfold every_tileIsValid, every.
    apply every_from_stops; [|done..]. intros i y Hy.
    rewrite Forall_lookup in Hpre. by apply (Hpre i). }
  split; [|split; [|split; [|split; [|split; [|split]]]]].
  - intros body Harr. by eapply makeMove_not_array.
  - intros pre tile post Hpre Htile. eapply makeMove_malformed; [done..|].
    by rewrite (Hstop pre tile post (Returned false)).
  - intros pre tile post Hpre Htile. eapply makeMove_threw; [done..|].
    by rewrite (Hstop pre tile post Threw).
  - intros [|neg|q].
    + split; [done|]. by intros (q & z & ? & _).
    + split; [by destruct neg|]. by intros (q & z & ? & _).
    + rewrite tileIsValid_number. split.
      * intros (z & Hq & Hz). by exists q, z.
      * intros (q' & z & [= <-] & Hq & Hz). by exists z.
  - apply tileIsValid_returns.
  - done.
  - intros tiles Hv Hlen. eapply makeMove_disallowed; [done..|].
    by apply moveIsAllowed_short.
Qed.

(** X16.  The order of the checks.  [makeMove], for a game named by its index,
    looks at the game, then at its dictionary, then at the shape of the
    tiles, then at the rules, then at the words already played, and answers
    with the error of the first check that fails, whatever the later checks
    would say; a throw of the shape check comes before the rules; tiles that
    passed the shape check never make the rules throw.  [setGameDict] looks
    at the game before the body. *)
Theorem checks_in_order games gameId body :
  (games !! gameId = None → makeMove games gameId body = (games, NotFound))
  ∧ (∀ game, games !! gameId = Some game → dict game = None →
       makeMove games gameId body = (games, DictionaryMissing))
  ∧ (∀ game words, games !! gameId = Some game → dict game = Some words →
       Array_isArray (Some body) = false →
       makeMove games gameId body = (games, MalformedMove))
  ∧ (∀ game words tiles, games !! gameId = Some game → dict game = Some words →
       body = VArr tiles → every_tileIsValid tiles = Returned false →
       makeMove games gameId body = (games, MalformedMove))
  ∧ (∀ game words tiles, games !! gameId = Some game → dict game = Some words →
       body = VArr tiles → every_tileIsValid tiles = Threw →
       makeMove games gameId body = (games, uncaught))
  ∧ (∀ game words tiles, games !! gameId = Some game → dict game = Some words →
       body = VArr tiles → every_tileIsValid tiles = Returned true →
       (moveIsAllowed tiles game = Returned false
        ∧ makeMove games gameId body = (games, DisallowedMove))
       ∨ (moveIsAllowed tiles game = Returned true
          ∧ (moveExists tiles game = Returned true →
             makeMove games gameId body = (games, DuplicateMove))
          ∧ (moveExists tiles game = Returned false →
             ∃ points, makeMove games gameId body
                       = (move_appended games gameId game tiles,
                          json_move 201 (length (moves game)) points))
          ∧ (moveExists tiles game = Threw →
             makeMove games gameId body = (games, uncaught))))
  ∧ (games !! gameId = None → setGameDict games gameId body = (games, NotFound))
  ∧ (∀ game, games !! gameId = Some game → dictIsValid body = false →
       setGameDict games gameId body = (games, InvalidDictionary)).
Proof.
  split; [|split; [|split; [|split; [|split; [|split; [|split]]]]]].
  - apply makeMove_not_found.
  - intros game. apply makeMove_no_dict.
  - intros game words. apply makeMove_not_array.
  - intros game words tiles Hg Hd ->. by eapply makeMove_malformed.
  - intros game words tiles Hg Hd ->. by eapply makeMove_threw.
  - intros game words tiles Hg Hd -> Hv.
    destruct (moveIsAllowed_returns tiles game Hv) as [[|] Ha].
    + right. split; [done|]. split; [|split].
      * intros He. by eapply makeMove_duplicate.
      * intros He. eexists. by eapply makeMove_accepted.
      * intros He. unfold makeMove. rewrite Hg, Hd. simpl. by rewrite Hv, Ha, He.
    + left. split; [done|]. by eapply makeMove_disallowed.
  - apply setGameDict_not_found.
  - intros game. apply setGameDict_invalid.
Qed.

End Properties.

(** * Further properties of the engine *)

Section Coverage.
Context `{!Builtins}.

(** ** Games over a run *)




(** X5.  Games do not touch each other.  A request that does not address
    the game at a position leaves that game exactly as it was, and so does a
    run none of whose requests addresses it. *)
Theorem other_games_untouched rs games gameId game :
  games !! gameId = Some game →
  Forall (λ r, target r ≠ Some gameId) rs →
  fst (run games rs) !! gameId = Some game.
Proof.
  revert games. induction rs as [|r rs IH]; intros games Hg Hrs; [done|].
  inversion_clear Hrs as [|? ? Hr Hrs']. rewrite run_cons. simpl fst.
  apply IH; [|done].
  destruct r as [body|g body|g body]; simpl in *.
  - unfold createGame. destruct (negb _); simpl; [done|]. by rewrite lookup_app_l by by eapply lookup_lt_Some.
  - assert (g ≠ gameId) by congruence.
    unfold setGameDict. destruct (games !! g); [|done].
    destruct (negb _); simpl; [done|]. by rewrite list_lookup_insert_ne.
  - assert (g ≠ gameId) by congruence.
    unfold makeMove. destruct (games !! g); [|done].
    repeat (case_match; simpl; try done). by rewrite list_lookup_insert_ne.
Qed.

(** X6.  Games stay.  Over any run a game keeps its position and its board,
    keeps a dictionary once it has one, and keeps its earlier moves at the
    front of its history; so a submission to it is never again answered with
    NotFound, nor with DictionaryMissing once a dictionary is attached, and
    an attachment to it is never answered with NotFound. *)
Theorem games_persist rs games gameId game body :
  games !! gameId = Some game →
  ∃ game', fst (run games rs) !! gameId = Some game'
    ∧ board game' = board game
    ∧ moves game `prefix_of` moves game'
    ∧ snd (makeMove (fst (run games rs)) gameId body) ≠ NotFound
    ∧ snd (setGameDict (fst (run games rs)) gameId body) ≠ NotFound
    ∧ (is_Some (dict game) →
       is_Some (dict game')
       ∧ snd (makeMove (fst (run games rs)) gameId body) ≠ DictionaryMissing).
Proof.
  intros Hg. destruct (run_preserves rs _ _ _ Hg) as (game' & Hg' & Hb & Hd & Hm).
  exists game'. split; [done|]. split; [done|]. split; [done|]. split; [|split].
  - unfold makeMove. rewrite Hg'. repeat (case_match; simpl; try done).
  - unfold setGameDict. rewrite Hg'. by destruct (negb _).
  - intros [words' Hd']%Hd. split; [by eexists|].
    unfold makeMove. rewrite Hg', Hd'. simpl. repeat (case_match; simpl; try done).
Qed.

(** X7.  The last dictionary wins.  Attaching a valid dictionary after any
    other attachment to the same game, valid or not, leaves the same state
    as attaching it at once: nothing of the earlier dictionary remains, and
    the board and the moves are those the game had. *)
Theorem last_dictionary_wins games gameId body1 body2 :
  dictIsValid body2 = true →
  setGameDict (fst (setGameDict games gameId body1)) gameId body2
  = setGameDict games gameId body2.
Proof.
  intros Hv2. destruct (games !! gameId) as [game|] eqn:Hg.
  - destruct (dictIsValid body1) eqn:Hv1.
    + rewrite (setGameDict_attached games gameId game body1) by done. simpl fst.
      erewrite (setGameDict_attached _ gameId) with (body := body2); [|  |done].
      2:{ apply list_lookup_insert_eq. by eapply lookup_lt_Some. }
      rewrite (setGameDict_attached games gameId game body2) by done. simpl.
      by rewrite list_insert_insert_eq.
    + by rewrite (setGameDict_invalid games gameId game body1).
  - by rewrite (setGameDict_not_found games gameId body1).
Qed.

(** [moveIsAllowed] reads the dictionary and the board of the game only. *)
Lemma moveIsAllowed_ext tiles game game' :
  dict game' = dict game → board game' = board game →
  moveIsAllowed tiles game' = moveIsAllowed tiles game.
Proof.
  intros Hd Hb. unfold moveIsAllowed, dict_has.
  by rewrite Hd, (tilesToWord_board tiles game game' Hb).
Qed.

(** X8.  No move is accepted twice in a row.  The request that was just
    accepted, sent again, is answered with DuplicateMove and changes
    nothing. *)
Theorem resubmission_is_duplicate games gameId body games1 status moveId points :
  makeMove games gameId body = (games1, json_move status moveId points) →
  makeMove games1 gameId body = (games1, DuplicateMove).
Proof.
  intros (game & words & tiles & Hg & Hd & -> & Hv & Ha & He & -> & _)%makeMove_json_inv.
  apply moveExists_inv in He as (played & word & Hp & Hw & _).
  set (game1 := {| dict := dict game; board := board game; moves := moves game ++ [tiles] |}).
  assert (Hg1 : move_appended games gameId game tiles !! gameId = Some game1).
  { unfold move_appended. apply list_lookup_insert_eq. by eapply lookup_lt_Some. }
  assert (Hw1 : tilesToWord tiles game1 = Returned word).
  { by rewrite (tilesToWord_board tiles game game1). }
  eapply makeMove_duplicate; [exact Hg1|exact Hd|done| |].
  - by rewrite (moveIsAllowed_ext tiles game game1).
  - rewrite (moveExists_returned tiles game1 (played ++ [word]) word); [|  |done].
    + f_equal. apply bool_decide_eq_true. set_solver.
    + unfold words_played. simpl. apply map_or_throw_app.
      * rewrite <- Hp. apply map_or_throw_ext. intros move. by apply tilesToWord_board.
      * simpl. by rewrite Hw1.
Qed.

(** ** The tile check on any value *)

(** induction on a value and on the elements of an array *)
Lemma value_ind_elems (P : value → Prop) :
  P VNull → (∀ b, P (VBool b)) → (∀ n, P (VNum n)) → (∀ s, P (VStr s)) →
  (∀ elems, Forall P elems → P (VArr elems)) → (∀ fields, P (VObj fields)) →
  ∀ v, P v.
Proof.
  intros Hnull Hbool Hnum Hstr Harr Hobj. fix IH 1.
  intros [|b|n|s|elems|fields];
    [apply Hnull|apply Hbool|apply Hnum|apply Hstr| |apply Hobj].
  apply Harr. revert elems. fix IHelems 1.
  intros [|e elems]; constructor; [apply IH|apply IHelems].
Qed.

Lemma ToString_array elems :
  ToString (VArr elems)
  = let* parts := map_or_throw printed elems in Returned (join (str ",") parts).
Proof.
  simpl. f_equal. induction elems as [|e elems IH]; [done|].
  simpl. by rewrite IH.
Qed.

Lemma map_or_throw_throws {A B} (f : A → outcome B) l :
  map_or_throw f l = Threw ↔ Exists (λ x, f x = Threw) l.
Proof.
  induction l as [|x l IH]; simpl.
  - split; [done|]. by intros ?%Exists_nil.
  - rewrite Exists_cons, <- IH. destruct (f x) as [y|]; simpl.
    + destruct (map_or_throw f l); simpl.
      * split; [done|]. by intros [?|?].
      * split; [by right|done].
    + split; [by left|done].
Qed.

Lemma ToString_throws v : ToString v = Threw ↔ unprintable_in v = true.
Proof.
  induction v as [|b|n|s|elems IH|fields] using value_ind_elems; try done.
  - rewrite ToString_array.
    assert (Hparts : map_or_throw printed elems = Threw ↔ existsb unprintable_in elems = true).
    { rewrite map_or_throw_throws, existsb_exists, Exists_exists. split.
      - intros (e & Hin & He). exists e. split; [by apply list_elem_of_In|].
        rewrite Forall_forall in IH. apply (IH e Hin). by destruct e.
      - intros (e & Hin%list_elem_of_In & He). exists e. split; [done|].
        rewrite Forall_forall in IH. apply (IH e Hin) in He. by destruct e. }
    rewrite <- Hparts. by destruct (map_or_throw printed elems).
  - cbn [ToString unprintable_in]. by destruct (has_own fields (str "toString")).
Qed.

Lemma ToNumber_throws v : ToNumber v = Threw ↔ unprintable_in v = true.
Proof.
  rewrite <- ToString_throws. unfold ToNumber, ToPrimitive.
  destruct v as [|b|n|s|elems|fields]; try done.
  - by destruct (ToString (VArr elems)).
  - by destruct (ToString (VObj fields)).
Qed.

(** X9.  What passes the tile check.  A value passes [tileIsValid] exactly
    when its conversion to a number returns an integer from 1 to 16,
    whatever its type; [true] passes, as 1; [false] and [null] do not pass.
    The check throws exactly when the conversion does, that is on an object
    with a property named [toString] and on an array that holds such an
    object at any depth; on any other value it returns. *)
Theorem tile_check_by_conversion tile :
  (tileIsValid tile = Returned true
   ↔ ∃ (q : Q) (z : Z), ToNumber tile = Returned (Fin q) ∧ (q == inject_Z z)%Q ∧ 1 ≤ z ≤ 16)
  ∧ (tileIsValid tile = Threw ↔ ToNumber tile = Threw)
  ∧ (tileIsValid tile = Threw ↔ unprintable_in tile = true)
  ∧ (∀ fields, tileIsValid (VObj fields) = Threw ↔ has_own fields (str "toString") = true)
  ∧ tileIsValid (VBool true) = Returned true
  ∧ tileIsValid (VBool false) = Returned false
  ∧ tileIsValid VNull = Returned false.
Proof.
  assert (Hthrows : ∀ v, tileIsValid v = Threw ↔ ToNumber v = Threw).
  { intros v. rewrite tileIsValid_ToNumber. destruct (ToNumber v) as [n|]; simpl; [|done].
    destruct (tileIsValid_returns n) as [b ->]. done. }
  split; [|split; [|split; [|split]]].
  - rewrite tileIsValid_ToNumber. destruct (ToNumber tile) as [[|neg|q]|]; simpl.
    + split; [done|]. by intros (q & z & ? & _).
    + split; [by destruct neg|]. by intros (q & z & ? & _).
    + rewrite tileIsValid_number. split.
      * intros (z & Hq & Hz). by exists q, z.
      * intros (q' & z & [= <-] & Hq & Hz). by exists z.
    + split; [done|]. by intros (q & z & ? & _).
  - apply Hthrows.
  - by rewrite Hthrows, ToNumber_throws.
  - intros fields. by rewrite Hthrows, ToNumber_throws.
  - by repeat split.
Qed.

(** ** Paths of integers *)

Lemma Zeqb_iff (x y x' y' : Z) : (x = y ↔ x' = y') → (x =? y) = (x' =? y').
Proof.
  intros Hiff. destruct (Z.eqb_spec x y) as [E|E], (Z.eqb_spec x' y') as [E'|E']; tauto.
Qed.

Lemma is_offset_tests (a b : Z) :
  (b - 4 =? a) || (b + 4 =? a) || (b - 1 =? a) || (b + 1 =? a)
  || (b - 3 =? a) || (b + 3 =? a) || (b - 5 =? a) || (b + 5 =? a)
  = is_offset (a - b).
Proof.
  unfold is_offset.
  rewrite (Zeqb_iff (b - 4) a (a - b) (-4)) by lia.
  rewrite (Zeqb_iff (b + 4) a (a - b) 4) by lia.
  rewrite (Zeqb_iff (b - 1) a (a - b) (-1)) by lia.
  rewrite (Zeqb_iff (b + 1) a (a - b) 1) by lia.
  rewrite (Zeqb_iff (b - 3) a (a - b) (-3)) by lia.
  rewrite (Zeqb_iff (b + 3) a (a - b) 3) by lia.
  rewrite (Zeqb_iff (b - 5) a (a - b) (-5)) by lia.
  rewrite (Zeqb_iff (b + 5) a (a - b) 5) by lia.
  reflexivity.
Qed.

Lemma is_offset_opp (d : Z) : is_offset (- d) = is_offset d.
Proof.
  unfold is_offset.
  rewrite (Zeqb_iff (- d) (-4) d 4) by lia.
  rewrite (Zeqb_iff (- d) 4 d (-4)) by lia.
  rewrite (Zeqb_iff (- d) (-1) d 1) by lia.
  rewrite (Zeqb_iff (- d) 1 d (-1)) by lia.
  rewrite (Zeqb_iff (- d) (-3) d 3) by lia.
  rewrite (Zeqb_iff (- d) 3 d (-3)) by lia.
  rewrite (Zeqb_iff (- d) (-5) d 5) by lia.
  rewrite (Zeqb_iff (- d) 5 d (-5)) by lia.
  by destruct (d =? 4), (d =? -4), (d =? 1), (d =? -1), (d =? 3), (d =? -3), (d =? 5), (d =? -5).
Qed.

(** the test of [every], from position [length pre] on *)
Lemma every_linked (zs : list Z) : ∀ pre : list Z,
  every_from isConsecutiveNeighbor (map (λ z, VNum (int z)) (pre ++ zs)) (length pre)
    (map (λ z, VNum (int z)) zs)
  = Returned match last pre with
             | Some a => linked (a :: zs)
             | None => linked zs
             end.
Proof.
  induction zs as [|b zs IH]; intros pre.
  - simpl. by destruct (last pre).
  - cbn [map every_from].
    assert (Htail :
      every_from isConsecutiveNeighbor (map (λ z, VNum (int z)) (pre ++ b :: zs))
        (S (length pre)) (map (λ z, VNum (int z)) zs)
      = Returned (linked (b :: zs))).
    { specialize (IH (pre ++ [b])). rewrite last_snoc in IH. rewrite <- IH.
      rewrite length_app, <- app_assoc. simpl. by rewrite Nat.add_1_r. }
    rewrite Htail. clear Htail IH.
    destruct (last pre) as [a|] eqn:Hlast.
    + assert (Hpre : pre ≠ []) by (by intros ->).
      assert (Hlen : (length pre ≠ 0)%nat) by (by destruct pre).
      rewrite (isConsecutiveNeighbor_int _ _ a b).
      * rewrite is_offset_tests. simpl. by destruct (is_offset (a - b)).
      * lia.
      * rewrite list_lookup_fmap, lookup_app_l by lia.
        rewrite last_lookup in Hlast.
        replace (length pre - 1)%nat with (pred (length pre)) by lia.
        by rewrite Hlast.
    + apply last_None in Hlast. subst pre. simpl. by destruct zs.
Qed.

Lemma every_isConsecutiveNeighbor_ints (zs : list Z) :
  every isConsecutiveNeighbor (map (λ z, VNum (int z)) zs) = Returned (linked zs).
Proof. apply (every_linked zs []). Qed.

Lemma linked_snoc (zs : list Z) (b : Z) :
  linked (zs ++ [b])
  = linked zs && match last zs with Some a => is_offset (a - b) | None => true end.
Proof.
  induction zs as [|a [|a' zs] IH]; [done| |].
  - simpl. by rewrite andb_true_r.
  - change (linked ((a :: a' :: zs) ++ [b]))
      with (is_offset (a - a') && linked ((a' :: zs) ++ [b])).
    rewrite IH. change (linked (a :: a' :: zs)) with (is_offset (a - a') && linked (a' :: zs)).
    by rewrite andb_assoc.
Qed.

Lemma linked_reverse (zs : list Z) : linked (reverse zs) = linked zs.
Proof.
  induction zs as [|a zs IH]; [done|].
  rewrite reverse_cons, linked_snoc, IH, last_reverse.
  destruct zs as [|b zs]; simpl; [done|].
  rewrite andb_comm. f_equal.
  rewrite <- is_offset_opp. f_equal. lia.
Qed.

(** X10.  Paths of tile indices.  A path of integers from 1 to 16 passes the
    neighbour test of [moveIsAllowed] exactly when each of its tiles but the
    first is 1, 3, 4 or 5 away from the one before; a path of one tile or
    none passes; and a path passes exactly when the same path walked
    backwards does. *)
Theorem integer_paths_linked (zs : list Z) :
  Forall (λ z, 1 ≤ z ≤ 16) zs →
  every isConsecutiveNeighbor (elements (Some (tiles_of zs))) = Returned (linked zs)
  ∧ (every isConsecutiveNeighbor (elements (Some (tiles_of zs))) = Returned true
     ↔ ∀ (i : nat) (a b : Z), zs !! i = Some a → zs !! S i = Some b →
         Z.abs (b - a) ∈ [1; 3; 4; 5])
  ∧ every isConsecutiveNeighbor (elements (Some (tiles_of (reverse zs))))
    = every isConsecutiveNeighbor (elements (Some (tiles_of zs))).
Proof.
  intros _. simpl. rewrite !every_isConsecutiveNeighbor_ints.
  split; [done|]. split; [|by rewrite linked_reverse].
  assert (Hinj : ∀ x : bool, Returned x = Returned true ↔ x = true)
    by (intros x; split; [by intros [= ->]|by intros ->]).
  rewrite Hinj. clear Hinj.
  induction zs as [|a [|b zs] IH].
  - split; [|done]. by intros _ [|i] ? ? ?.
  - split; [|done]. by intros _ [|[|i]] ? ? ?.
  - change (linked (a :: b :: zs)) with (is_offset (a - b) && linked (b :: zs)).
    rewrite andb_true_iff, IH. split.
    + intros [Hab Hrest] [|i] x y Hx Hy.
      * injection Hx as <-. injection Hy as <-. unfold is_offset in Hab.
        rewrite !orb_true_iff, !Z.eqb_eq in Hab.
        rewrite !elem_of_cons, elem_of_nil. lia.
      * by apply (Hrest i).
    + intros Hall. split.
      * specialize (Hall 0%nat a b eq_refl eq_refl).
        rewrite !elem_of_cons, elem_of_nil in Hall.
        unfold is_offset. rewrite !orb_true_iff, !Z.eqb_eq. lia.
      * intros i x y Hx Hy. by apply (Hall (S i)).
Qed.

(** ** The neighbour test against the grid *)

Lemma offsets_on_grid_table :
  forallb (λ a, forallb (λ b,
      Bool.eqb (is_offset (a - b)) (grid_neighbours a b || wraps a b)
      && negb (grid_neighbours a b && wraps a b)) (seqZ 1 16)) (seqZ 1 16) = true.
Proof. by vm_compute. Qed.

Lemma offsets_on_grid (a b : Z) :
  1 ≤ a ≤ 16 → 1 ≤ b ≤ 16 →
  is_offset (a - b) = grid_neighbours a b || wraps a b
  ∧ (grid_neighbours a b = true → wraps a b = false).
Proof.
  intros Ha Hb. pose proof offsets_on_grid_table as Htable.
  rewrite forallb_forall in Htable.
  specialize (Htable a). rewrite forallb_forall in Htable.
  specialize (Htable ltac:(apply list_elem_of_In, elem_of_seqZ; lia) b
                     ltac:(apply list_elem_of_In, elem_of_seqZ; lia)).
  apply andb_true_iff in Htable as [Heq Hdisj].
  apply Bool.eqb_prop in Heq. split; [done|].
  intros Hg. rewrite Hg in Hdisj. simpl in Hdisj. by destruct (wraps a b).
Qed.

(** X11.  The neighbour test and the grid.  On the 4 by 4 layout that the
    source gives for reference, two tiles that touch by a side or a corner
    always pass the neighbour test; the only other pairs that pass are the
    nine pairs that are an offset apart across the edge of the grid: 4-5,
    8-9, 12-13, the row ends 1-4, 5-8, 9-12, 13-16, and 4-9, 8-13. *)
Theorem neighbour_test_on_grid tiles index (a b : Z) :
  1 ≤ a ≤ 16 → 1 ≤ b ≤ 16 →
  index ≠ 0%nat → tiles !! (index - 1)%nat = Some (VNum a) →
  isConsecutiveNeighbor (VNum b) index tiles = Returned (grid_neighbours a b || wraps a b)
  ∧ (grid_neighbours a b = true → isConsecutiveNeighbor (VNum b) index tiles = Returned true)
  ∧ (grid_neighbours a b = true → wraps a b = false)
  ∧ (wraps a b = true ↔ (a, b) ∈ wrapping_pairs ∨ (b, a) ∈ wrapping_pairs).
Proof.
  intros Ha Hb Hi Hlast.
  rewrite (isConsecutiveNeighbor_int tiles index a b Hi Hlast), is_offset_tests.
  destruct (offsets_on_grid a b Ha Hb) as [Heq Hdisj].
  split; [by rewrite Heq|]. split; [by intros Hg; rewrite Heq, Hg|]. split; [done|].
  unfold wraps. rewrite existsb_exists. split.
  - intros ([x y] & Hin%list_elem_of_In & Hxy). simpl in Hxy.
    rewrite orb_true_iff, !andb_true_iff, !Z.eqb_eq in Hxy.
    destruct Hxy as [[-> ->]|[-> ->]]; [by left|by right].
  - intros [Hin|Hin].
    + exists (a, b). split; [by apply list_elem_of_In|]. simpl.
      by rewrite !Z.eqb_refl.
    + exists (b, a). split; [by apply list_elem_of_In|]. simpl.
      by rewrite !Z.eqb_refl, orb_true_r.
Qed.

(** ** Tiles that are not numbers *)

(** X12.  What can follow what.  When a tile passes the neighbour test after
    another one, the earlier tile is a number or a string: nothing follows a
    boolean, [null], an array or an object.  After a string, only a tile
    that converts to a string can follow, and the earlier string is that
    string with one of the digits 4, 1, 3, 5 of the test appended; so a
    number never follows anything but a number. *)
Theorem what_follows_what tile index tiles lastTile :
  index ≠ 0%nat → tiles !! (index - 1)%nat = Some lastTile →
  isConsecutiveNeighbor tile index tiles = Returned true →
  ((∃ n, lastTile = VNum n)
   ∨ (∃ s t (k : Z), lastTile = VStr s ∧ ToPrimitive tile = Returned (VStr t)
        ∧ k ∈ [4; 1; 3; 5] ∧ s = t ++ NumberToString (int k)))
  ∧ (is_number tile = true → is_number lastTile = true).
Proof.
  intros Hi Hlast Hn. unfold isConsecutiveNeighbor in Hn.
  destruct (Nat.eqb_spec index 0) as [|_]; [done|]. rewrite Hlast in Hn.
  destruct (ToPrimitive tile) as [p|] eqn:Hp; cycle 1.
  { exfalso. revert Hn. unfold equals, js_sub, ToNumber. by rewrite Hp. }
  assert (Hnum : ToNumber tile = Returned (number_of_primitive p))
    by (unfold ToNumber; by rewrite Hp).
  unfold equals, js_sub, js_add in Hn. rewrite Hp, Hnum in Hn. unfold bind in Hn.
  rewrite !or_else_returned in Hn. injection Hn as Hn.
  assert (Hsub : ∀ n, strict_eq (VNum n) (Some lastTile) = true → ∃ m, lastTile = VNum m).
  { intros n. destruct lastTile; try done. eauto. }
  assert (Hadd : ∀ k : Z, k ∈ [4; 1; 3; 5] →
            strict_eq match p with
                      | VStr s => VStr (s ++ NumberToString (int k))
                      | _ => VNum (num_add (number_of_primitive p) (int k))
                      end (Some lastTile) = true →
            (∃ n, lastTile = VNum n)
            ∨ (∃ s t (k : Z), lastTile = VStr s ∧ Returned p = Returned (VStr t)
                 ∧ k ∈ [4; 1; 3; 5] ∧ s = t ++ NumberToString (int k))).
  { intros k Hk.
    destruct p as [| | |t| |]; simpl;
      destruct lastTile as [| |m|s| |]; try done; eauto.
    intros Heq%bool_decide_eq_true. right. exists s, t, k. by rewrite Heq. }
  assert (Hcases : (∃ n, lastTile = VNum n)
            ∨ (∃ s t (k : Z), lastTile = VStr s ∧ Returned p = Returned (VStr t)
                 ∧ k ∈ [4; 1; 3; 5] ∧ s = t ++ NumberToString (int k))).
  { rewrite !orb_true_iff in Hn.
    destruct Hn as [[[[[[[Hn|Hn]|Hn]|Hn]|Hn]|Hn]|Hn]|Hn].
    - left. by eapply Hsub.
    - apply (Hadd 4); [set_solver|done].
    - left. by eapply Hsub.
    - apply (Hadd 1); [set_solver|done].
    - left. by eapply Hsub.
    - apply (Hadd 3); [set_solver|done].
    - left. by eapply Hsub.
    - apply (Hadd 5); [set_solver|done]. }
  split; [done|].
  intros Hnumber. destruct Hcases as [[n ->]|(s & t & k & -> & [= ->] & _)]; [done|].
  by destruct tile.
Qed.

(** ** Every game the server ever has *)

Lemma is_path_of_allowed tiles game :
  every_tileIsValid tiles = Returned true → moveIsAllowed tiles game = Returned true →
  is_path tiles.
Proof.
  intros Hv (Hlen & Hn & Hset & _)%moveIsAllowed_true. by repeat split.
Qed.

Lemma well_formed_ext game game' :
  board game' = board game → moves game' = moves game →
  well_formed game → well_formed game'.
Proof.
  intros Hb Hm (Hlen & Hpaths & played & Hp & Hwords). unfold well_formed. rewrite Hb, Hm.
  split; [done|]. split; [done|]. exists played. split; [|done].
  by rewrite (words_played_board game game').
Qed.

Lemma handle_well_formed games r :
  Forall well_formed games → Forall well_formed (fst (handle games r)).
Proof.
  intros Hall. destruct r as [body|g body|g body]; simpl.
  - destruct (boardIsValid body) eqn:Hv.
    + rewrite createGame_created by done. cbn [fst]. apply Forall_app. split; [done|].
      apply Forall_singleton.
      apply boardIsValid_iff in Hv as (cs & -> & Hlen & _).
      unfold well_formed, words_played. cbn [board moves elements strings_of map_or_throw].
      rewrite !length_map. split; [done|]. split; [constructor|].
      exists []. split; [done|constructor].
    + by rewrite createGame_invalid.
  - unfold setGameDict. destruct (games !! g) as [game|] eqn:Hg; [|done].
    destruct (negb _); simpl; [done|].
    apply Forall_insert; [done|].
    eapply (well_formed_ext game); [done|done|].
    by eapply Forall_lookup_1.
  - destruct (makeMove games g body) as [games' resp] eqn:E. simpl.
    destruct (makeMove_response_kind games g body) as [(moveId & points & Hr)|Hr];
      rewrite E in Hr; simpl in Hr.
    + subst resp. apply makeMove_json_inv in E
        as (game & words & tiles & Hg & Hd & -> & Hv & Ha & He & -> & _).
      unfold move_appended. apply Forall_insert; [done|].
      destruct (Forall_lookup_1 _ _ _ _ Hall Hg) as (Hlen & Hpaths & played & Hp & Hwords).
      apply moveExists_inv in He as (played' & word & Hp' & Hw & He).
      rewrite Hp in Hp'. injection Hp' as <-.
      symmetry in He. apply bool_decide_eq_false in He.
      unfold well_formed; simpl. split; [done|]. split.
      * apply Forall_app. split; [done|]. apply Forall_singleton.
        by eapply is_path_of_allowed.
      * exists (played ++ [word]). split.
        -- unfold words_played. simpl. apply map_or_throw_app.
           ++ rewrite <- Hp. apply map_or_throw_ext. intros move. by apply tilesToWord_board.
           ++ simpl. rewrite (tilesToWord_board tiles game) by done. by rewrite Hw.
        -- apply NoDup_app. split; [done|]. split; [|apply NoDup_singleton].
           intros w Hin Hw'. assert (w = word) as -> by set_solver. done.
    + assert (games' = games) as ->; [|done].
      destruct Hr as [Hr| ->]; [|by apply makeMove_uncaught_inv in E].
      apply error_kind_is_send in Hr as (status & text & ->).
      by apply makeMove_send_inv in E as [-> _].
Qed.

Lemma run_well_formed rs : ∀ games,
  Forall well_formed games → Forall well_formed (fst (run games rs)).
Proof.
  induction rs as [|r rs IH]; intros games Hall; [done|].
  rewrite run_cons. simpl fst. by apply IH, handle_well_formed.
Qed.

(** X13.  Stored moves are paths.  In every state the server reaches, the
    board of every game has 16 letters, so that every integer tile from 1
    to 16 finds its letter, and every move in a history has at least 3
    tiles, all of which pass the tile check, each passing the neighbour test
    after the one before, no two of them the same member of a set. *)
Theorem stored_moves_are_paths rs gameId game :
  fst (run [] rs) !! gameId = Some game →
  length (board game) = 16%nat
  ∧ (∀ z : Z, 1 ≤ z ≤ 16 →
       ∃ n, js_sub (VNum z) 1 = Returned n ∧ is_Some (board_at game n))
  ∧ Forall (λ move,
        (3 ≤ length move)%nat
        ∧ every_tileIsValid move = Returned true
        ∧ every isConsecutiveNeighbor move = Returned true
        ∧ length (Set_of move) = length move) (moves game).
Proof.
  intros Hg.
  pose proof (run_well_formed rs [] (Forall_nil_2 _)) as Hall.
  destruct (Forall_lookup_1 _ _ _ _ Hall Hg) as (Hlen & Hpaths & _).
  split; [done|]. split.
  - intros z Hz. exists (VNum (num_sub z 1)). split; [done|].
    rewrite (board_at_int game z) by lia. apply lookup_lt_is_Some. lia.
  - eapply Forall_impl; [exact Hpaths|]. intros move (Hv & Hl & Hn & Hs). done.
Qed.

(** X14.  A word scores once.  In every state the server reaches, the words
    of the moves in the history of a game are all formed, and they are
    pairwise different, whatever dictionaries were attached in between. *)
Theorem stored_words_distinct rs gameId game :
  fst (run [] rs) !! gameId = Some game →
  ∃ played,
    words_played game = Returned played
    ∧ map (λ move, tilesToWord move game) (moves game) = map Returned played
    ∧ NoDup played
    ∧ NoDup (map (λ move, tilesToWord move game) (moves game)).
Proof.
  intros Hg.
  pose proof (run_well_formed rs [] (Forall_nil_2 _)) as Hall.
  destruct (Forall_lookup_1 _ _ _ _ Hall Hg) as (_ & _ & played & Hp & Hwords).
  exists played. split; [done|].
  assert (Hmap : map (λ move, tilesToWord move game) (moves game) = map Returned played).
  { revert Hp. unfold words_played. clear. revert played.
    induction (moves game) as [|move l IH]; intros played; simpl.
    - by intros [= <-].
    - destruct (tilesToWord move game) as [word|]; simpl; [|done].
      destruct (map_or_throw _ l) as [ws|]; simpl; [|done].
      intros [= <-]. simpl. by rewrite (IH ws). }
  split; [done|]. split; [done|]. rewrite Hmap.
  apply NoDup_fmap_2; [|done]. by intros ? ? [= ->].
Qed.

(** ** The scenario of the tests, on any board *)

Lemma run_step games r rs games1 resp :
  handle games r = (games1, resp) →
  snd (run games (r :: rs)) = resp :: snd (run games1 rs).
Proof. intros E. rewrite run_cons, E. reflexivity. Qed.

Lemma path_12_15_1_4_disallowed game :
  moveIsAllowed (elements (Some (tiles_of [12; 15; 1; 4]))) game = Returned false.
Proof.
  unfold moveIsAllowed.
  by replace (every isConsecutiveNeighbor (elements (Some (tiles_of [12; 15; 1; 4]))))
    with (Returned false) by (by vm_compute).
Qed.

Lemma path_6_1_2_allowed game :
  moveIsAllowed (elements (Some (tiles_of [6; 1; 2]))) game
  = let* word := tilesToWord (elements (Some (tiles_of [6; 1; 2]))) game in
    Returned (dict_has game word).
Proof.
  unfold moveIsAllowed.
  replace (every isConsecutiveNeighbor (elements (Some (tiles_of [6; 1; 2]))))
    with (Returned true) by (by vm_compute).
  by replace (Nat.eqb (length (elements (Some (tiles_of [6; 1; 2]))))
                      (length (Set_of (elements (Some (tiles_of [6; 1; 2]))))))
    with true by (by vm_compute).
Qed.

(** X3.  The scenario of the tests.  On any valid board and any valid
    dictionary that holds the word spelled by tiles 6, 1, 2, the eight
    requests of [server.test.js], in order, from the start of the server,
    get the eight responses the tests expect. *)
Theorem test_suite_responses (cs ws : list jsstring) (word : jsstring) :
  length cs = 16%nat → Forall (λ c, length c = 1%nat) cs →
  tilesToWord (elements (Some (tiles_of [6; 1; 2])))
    {| dict := None; board := map toUpperCase cs; moves := [] |} = Returned word →
  word ∈ (list_to_set (map toUpperCase ws) : gset jsstring) →
  snd (run []
         [POST_games (VObj []); POST_games (VObj [(str "board", strings_of cs)]);
          PUT_dict 0 (VObj []); PUT_dict 0 (VObj [(str "words", strings_of ws)]);
          POST_moves 0 (VObj []); POST_moves 0 (tiles_of [12; 15; 1; 4]);
          POST_moves 0 (tiles_of [6; 1; 2]); POST_moves 0 (tiles_of [6; 1; 2])])
  = [send 400 "Invalid board"; json_gameId 201 0;
     send 400 "Invalid dictionary"; sendStatus 204;
     send 400 "Move must be list of 3+ tiles"; send 403 "Move is not allowed on board";
     json_move 201 0 1; send 403 "Move already played"].
Proof.
  intros Hlen Hcs Hword Hin.
  set (words := list_to_set (map toUpperCase ws) : gset jsstring) in *.
  set (game0 := {| dict := None; board := map toUpperCase cs; moves := [] |}) in *.
  set (game1 := {| dict := Some words; board := map toUpperCase cs; moves := [] |}).
  set (game2 := {| dict := Some words; board := map toUpperCase cs;
                   moves := [elements (Some (tiles_of [6; 1; 2]))] |}).
  erewrite (run_step []); [|by apply createGame_invalid]. f_equal.
  erewrite (run_step [] _ _ [game0]); cycle 1.
  { cbn [handle]. rewrite createGame_created.
    - rewrite field_here. unfold strings_of. cbn [elements]. by rewrite map_map.
    - apply boardIsValid_iff. exists cs. by rewrite field_here. }
  f_equal.
  erewrite (run_step [game0]); [|by apply (setGameDict_invalid _ _ game0)]. f_equal.
  erewrite (run_step [game0] _ _ [game1]); cycle 1.
  { cbn [handle]. rewrite (setGameDict_attached _ _ game0); [|done|].
    - rewrite field_here. unfold strings_of. cbn [elements]. by rewrite words_of_strings.
    - apply dictIsValid_iff. exists ws. by rewrite field_here. }
  f_equal.
  erewrite (run_step [game1]); [|by eapply (makeMove_not_array _ _ game1)]. f_equal.
  erewrite (run_step [game1]); cycle 1.
  { eapply (makeMove_disallowed _ _ game1); [done|done|by vm_compute|].
    apply path_12_15_1_4_disallowed. }
  f_equal.
  assert (Hformed : ∀ game, board game = board game0 →
            tilesToWord (elements (Some (tiles_of [6; 1; 2]))) game = Returned word).
  { intros game Hb. by rewrite (tilesToWord_board _ game0 game Hb). }
  assert (Hallowed : ∀ game, dict game = Some words → board game = board game0 →
            moveIsAllowed (elements (Some (tiles_of [6; 1; 2]))) game = Returned true).
  { intros game Hd Hb. rewrite path_6_1_2_allowed, (Hformed game Hb). simpl.
    unfold dict_has. rewrite Hd. f_equal. by apply bool_decide_eq_true. }
  erewrite (run_step [game1] _ _ [game2]); cycle 1.
  { cbn [handle]. unfold tiles_of. rewrite (makeMove_accepted [game1] 0 game1 words).
    - reflexivity.
    - reflexivity.
    - reflexivity.
    - by vm_compute.
    - by apply Hallowed.
    - by rewrite (moveExists_returned _ game1 [] word) by (by try apply Hformed). }
  f_equal.
  erewrite (run_step [game2]); [done|].
  eapply (makeMove_duplicate _ _ game2); [done|done|by vm_compute|by apply Hallowed|].
  rewrite (moveExists_returned _ game2 [word] word).
  - f_equal. apply bool_decide_eq_true. set_solver.
  - change (words_played game2)
      with (map_or_throw (λ move, tilesToWord move game2)
              [elements (Some (tiles_of [6; 1; 2]))]).
    cbn [map_or_throw]. by rewrite (Hformed game2).
  - by apply Hformed.
Qed.

End Coverage.

(** * The route parameter *)

Section Route.
Context `{!Builtins}.

Lemma str_digit (d : N) (s : string) :
  (d < 10)%N → str (String (pretty_N_char d) s) = (48 + d)%N :: str s.
Proof.
  intros Hd.
  assert (d = 0 ∨ d = 1 ∨ d = 2 ∨ d = 3 ∨ d = 4 ∨ d = 5 ∨ d = 6 ∨ d = 7 ∨ d = 8 ∨ d = 9)%N
    as Hcases by lia.
  repeat (destruct Hcases as [->|Hcases]; [reflexivity|]). by subst d.
Qed.

Lemma digit_value_digit (d : N) : (d < 10)%N → digit_value (48 + d) = Some d.
Proof.
  intros Hd. unfold digit_value.
  destruct (N.leb_spec 48 (48 + d)); [|lia]. destruct (N.leb_spec (48 + d) 57); [|lia].
  simpl. f_equal. lia.
Qed.

(** reading the digits that [pretty] wrote gives the number back *)
Lemma numeral_value_pretty (x : N) : ∀ s,
  numeral_value 0 (str (pretty_N_go x s)) = numeral_value x (str s).
Proof.
  induction (N.lt_wf_0 x) as [x _ IH]; intros s.
  assert (x = 0 ∨ 0 < x)%N as [->|Hx] by lia; [by rewrite pretty_N_go_0|].
  rewrite pretty_N_go_step by done.
  rewrite IH by (by apply N.div_lt).
  rewrite str_digit by (by apply N.mod_lt).
  cbn [numeral_value]. rewrite digit_value_digit by (by apply N.mod_lt). simpl.
  f_equal. pose proof (N.div_mod x 10). lia.
Qed.

(** and the first digit that [pretty] wrote is not 0 *)
Lemma pretty_leading_digit (x : N) : ∀ s,
  (0 < x)%N → ∃ d rest, (0 < d < 10)%N ∧ str (pretty_N_go x s) = (48 + d)%N :: rest.
Proof.
  induction (N.lt_wf_0 x) as [x _ IH]; intros s Hx.
  rewrite pretty_N_go_step by done.
  destruct (N.eq_0_gt_0_cases (x `div` 10)) as [Hq|Hq].
  - rewrite Hq, pretty_N_go_0. exists (x `mod` 10)%N, (str s).
    pose proof (N.div_mod x 10). pose proof (N.mod_lt x 10).
    split; [lia|]. apply str_digit. lia.
  - apply IH; [|done]. by apply N.div_lt.
Qed.

Lemma array_index_numeral (index : nat) :
  (N.of_nat index < 4294967295)%N → array_index (numeral index) = Some index.
Proof.
  intros Hlt. unfold numeral, pretty, pretty_nat, pretty, pretty_N.
  case_decide as H0.
  - by replace index with 0%nat by lia.
  - assert (Hpos : (0 < N.of_nat index)%N) by lia.
    destruct (pretty_leading_digit (N.of_nat index) "" Hpos) as (d & rest & Hd & Hstr).
    pose proof (numeral_value_pretty (N.of_nat index) "") as Hvalue.
    rewrite Hstr in Hvalue |- *.
    change (numeral_value (N.of_nat index) (str "")) with (Some (N.of_nat index)) in Hvalue.
    assert (Hindex : array_index ((48 + d)%N :: rest)
                     = n ← numeral_value 0 ((48 + d)%N :: rest);
                       if (n <? 4294967295)%N then Some (N.to_nat n) else None).
    { assert (d = 1 ∨ d = 2 ∨ d = 3 ∨ d = 4 ∨ d = 5 ∨ d = 6 ∨ d = 7 ∨ d = 8 ∨ d = 9)%N
        as Hcases by lia.
      repeat (destruct Hcases as [->|Hcases]; [reflexivity|]). by subst d. }
    rewrite Hindex, Hvalue. cbn [mbind option_bind].
    destruct (N.ltb_spec (N.of_nat index) 4294967295); [|lia].
    by rewrite Nat2N.id.
Qed.

Lemma games_at_numeral (index : nat) :
  (N.of_nat index < 4294967295)%N → games_at (numeral index) = Some (element index).
Proof. intros Hlt. unfold games_at. by rewrite array_index_numeral. Qed.

Lemma games_at_length : games_at (str "length") = Some the_length.
Proof. by vm_compute. Qed.

(** X17.  The route parameter.  The numeral of an index reads the game at
    that index, if there is one, and both controllers answer as on the
    index; so the [gameId] that [createGame] hands out addresses the game it
    created.  The parameter [length] reads the number of games: with no
    game the answer is NotFound; with a game, a submission is answered with
    DictionaryMissing and an attachment with the status of a success or with
    InvalidDictionary, whatever games there are, and no game is changed.  A
    string of digits that is the numeral of no index is answered with
    NotFound. *)
Theorem route_parameter games body :
  (∀ index : nat, (N.of_nat index < 4294967295)%N →
     makeMove_route games (numeral index) body = Some (makeMove games index body)
     ∧ setGameDict_route games (numeral index) body = Some (setGameDict games index body))
  ∧ (∀ board games1 gameId,
       createGame games board = (games1, json_gameId 201 gameId) →
       (N.of_nat gameId < 4294967295)%N →
       makeMove_route games1 (numeral gameId) body = Some (games1, DictionaryMissing))
  ∧ (games ≠ [] →
     makeMove_route games (str "length") body = Some (games, DictionaryMissing)
     ∧ setGameDict_route games (str "length") body
       = Some (games, if dictIsValid body then sendStatus 204 else InvalidDictionary))
  ∧ (makeMove_route [] (str "length") body = Some ([], NotFound)
     ∧ setGameDict_route [] (str "length") body = Some ([], NotFound))
  ∧ (∀ name, games_at name = Some no_property →
       makeMove_route games name body = Some (games, NotFound)
       ∧ setGameDict_route games name body = Some (games, NotFound)).
Proof.
  split; [|split; [|split; [|split]]].
  - intros index Hlt. unfold makeMove_route, setGameDict_route.
    by rewrite games_at_numeral.
  - intros board games1 gameId Hcreated Hlt.
    unfold makeMove_route. rewrite games_at_numeral by done. cbn [mbind option_bind]. f_equal.
    revert Hcreated. unfold createGame. destruct (negb _); [done|].
    intros [= <- <-]. eapply makeMove_no_dict; [by apply list_lookup_middle|done].
  - intros Hgames. unfold makeMove_route, setGameDict_route. rewrite games_at_length. simpl.
    destruct games as [|game games]; [done|]. simpl.
    by destruct (dictIsValid body).
  - unfold makeMove_route, setGameDict_route. by rewrite games_at_length.
  - intros name Hname. unfold makeMove_route, setGameDict_route. by rewrite Hname.
Qed.

End Route.

(** * The claims on the scenario of the test suite *)

#[local] Existing Instance decimal_builtins.

(** [test_game] is the state after the board and the dictionary of the tests *)
Lemma test_game_ready :
  fst (run [] [POST_games test_board; PUT_dict 0 test_dict]) = [test_game].
Proof. by vm_compute. Qed.

(** C1 fails on the path 1, 2.  The game exists and has a dictionary, the
    tiles are two integers from 1 to 16, hence fewer than 3 and all valid;
    the shape check of [makeMove], whose message is "Move must be list of 3+
    tiles", lets them through, and the answer is DisallowedMove, not
    MalformedMove. *)
Theorem short_move_not_malformed :
  [test_game] !! 0%nat = Some test_game
  ∧ is_Some (dict test_game)
  ∧ every_tileIsValid (elements (Some (tiles_of [1; 2]))) = Returned true
  ∧ (length (elements (Some (tiles_of [1; 2]%Z))) < 3)%nat
  ∧ makeMove [test_game] 0 (tiles_of [1; 2]) = ([test_game], DisallowedMove)
  ∧ makeMove_route [test_game] (str "0") (tiles_of [1; 2]) = Some ([test_game], DisallowedMove)
  ∧ snd (run [] [POST_games test_board; PUT_dict 0 test_dict; POST_moves 0 (tiles_of [1; 2])])
    = [json_gameId 201 0; sendStatus 204; send 403 "Move is not allowed on board"]
  ∧ makeMove [test_game] 0 (tiles_of []) = ([test_game], DisallowedMove)
  ∧ DisallowedMove ≠ MalformedMove.
Proof.
  split; [done|]. split; [by eexists|]. split; [by vm_compute|].
  split; [simpl; lia|]. split; [by vm_compute|]. split; [by vm_compute|].
  split; [by vm_compute|]. split; [by vm_compute|]. done.
Qed.

(** [adjacency_by_offset] on the step from tile 6 to tile 1 *)
Lemma adjacency_by_offset_witness :
  isConsecutiveNeighbor (VNum 1) 1 [VNum 6; VNum 1; VNum 2] = Returned true
  ↔ 1 - 6 ∈ [1; -1; 3; -3; 4; -4; 5; -5].
Proof.
  apply (proj1 adjacency_by_offset [VNum 6; VNum 1; VNum 2] 1%nat 6 1); [lia|lia|done|done].
Defined.

(** [accepted_word_in_dictionary] on the test game: the word of 6, 1, 2 is
    FAB, and 1, 2, 3 spells ABC, which the dictionary does not hold *)
Lemma accepted_word_in_dictionary_witness :
  tilesToWord (elements (Some (tiles_of [6; 1; 2]))) test_game = Returned (str "FAB")
  ∧ tilesToWord (elements (Some (tiles_of [1; 2; 3]))) test_game = Returned (str "ABC")
  ∧ makeMove [test_game] 0 (tiles_of [1; 2; 3]) = ([test_game], DisallowedMove).
Proof.
  destruct (accepted_word_in_dictionary [test_game] 0 test_game _
              (elements (Some (tiles_of [1; 2; 3]))) eq_refl eq_refl eq_refl)
    as (abc & Habc & _ & Hnot_in & _).
  destruct (accepted_word_in_dictionary [test_game] 0 test_game _
              (elements (Some (tiles_of [6; 1; 2]))) eq_refl eq_refl eq_refl)
    as (fab & Hfab & _ & _ & Hword).
  split; [|split].
  - rewrite Hfab. f_equal. by rewrite (Hword [6; 1; 2] eq_refl).
  - by vm_compute.
  - apply Hnot_in.
    assert (Hspelled : abc = str "ABC") by (injection Habc as <-; by vm_compute).
    rewrite Hspelled. by vm_compute.
Defined.

(** [repeated_word_is_duplicate]: FAB is accepted along 1, 2, 3; after a
    rejected submission and the creation of another game, FAB along 1, 5, 6
    is a duplicate *)
Lemma repeated_word_is_duplicate_witness :
  makeMove [twice_game] 0 (tiles_of [1; 2; 3])
  = (move_appended [twice_game] 0 twice_game (elements (Some (tiles_of [1; 2; 3]))),
     json_move 201 0 1)
  ∧ snd (makeMove
           (fst (run (move_appended [twice_game] 0 twice_game (elements (Some (tiles_of [1; 2; 3]))))
                   [POST_moves 0 (tiles_of [1; 2]); POST_games test_board]))
           0 (tiles_of [1; 5; 6]))
    = DuplicateMove.
Proof.
  assert (Hfirst : makeMove [twice_game] 0 (tiles_of [1; 2; 3])
            = (move_appended [twice_game] 0 twice_game (elements (Some (tiles_of [1; 2; 3]))),
               json_move 201 0 1)) by by vm_compute.
  split; [exact Hfirst|].
  destruct (repeated_word_is_duplicate _ _ _ _ _ _ _
              [POST_moves 0 (tiles_of [1; 2]); POST_games test_board]
              (elements (Some (tiles_of [1; 5; 6]))) Hfirst)
    as (game1 & game2 & Hg1 & Hg2 & Hsame).
  injection Hg1 as <-. injection Hg2 as <-.
  destruct (Hsame eq_refl) as [_ Hdup].
  exact (f_equal snd (Hdup eq_refl eq_refl)).
Defined.

(** [points_power_of_two] on the test board: 6, 1, 2 is accepted for 1
    point, then 1, 2, 6, 5 for 2 points and 1, 2, 6, 5, 10 for 4 *)
Lemma points_power_of_two_witness :
  makeMove [test_game] 0 (tiles_of [6; 1; 2])
  = (move_appended [test_game] 0 test_game (elements (Some (tiles_of [6; 1; 2]))),
     json_move 201 0 1)
  ∧ snd (run [] [POST_games test_board; PUT_dict 0 long_dict;
                 POST_moves 0 (tiles_of [6; 1; 2]); POST_moves 0 (tiles_of [1; 2; 6; 5]);
                 POST_moves 0 (tiles_of [1; 2; 6; 5; 10])])
    = [json_gameId 201 0; sendStatus 204; json_move 201 0 1; json_move 201 1 2;
       json_move 201 2 4]
  ∧ ∃ tiles, tiles_of [6; 1; 2] = VArr tiles ∧ (3 ≤ length tiles)%nat
      ∧ num_eq 1 (int (2 ^ (Z.of_nat (length tiles) - 3))) = true.
Proof.
  assert (Haccepted : makeMove [test_game] 0 (tiles_of [6; 1; 2])
            = (move_appended [test_game] 0 test_game (elements (Some (tiles_of [6; 1; 2]))),
               json_move 201 0 1)) by by vm_compute.
  split; [exact Haccepted|]. split; [by vm_compute|].
  destruct (proj1 (points_power_of_two [test_game] 0 (tiles_of [6; 1; 2])) _ _ _ _ Haccepted)
    as (tiles & Hbody & Hlen & Hpoints & _).
  by exists tiles.
Defined.

(** [createGame_board_validation] on the test board, on a board with a
    Cyrillic letter, which is one code unit, and on boards with an element of
    two code units: two letters, and one character beyond the basic plane *)
Lemma createGame_board_validation_witness :
  createGame [] test_board
  = ([ {| dict := None;
          board := map str ["A";"B";"C";"D";"E";"F";"G";"H";"I";"J";"K";"L";"M";"N";"O";"P"]%string;
          moves := [] |} ],
     json_gameId 201 0)
  ∧ snd (createGame []
           (VObj [(str "board",
                   strings_of (map str ["я";"b";"c";"d";"e";"f";"g";"h";
                                        "i";"j";"k";"l";"m";"n";"o";"p"]%string))]))
    = json_gameId 201 0
  ∧ createGame [] (VObj [(str "board", strings_of (map str ["a"; "bc"]%string))])
    = ([], InvalidBoard)
  ∧ createGame []
      (VObj [(str "board",
              strings_of (map str ["😀";"b";"c";"d";"e";"f";"g";"h";
                                   "i";"j";"k";"l";"m";"n";"o";"p"]%string))])
    = ([], InvalidBoard).
Proof.
  split; [|split; [|split]].
  - etrans.
    + apply (proj1 (createGame_board_validation [] test_board)
               (map str ["a";"b";"c";"d";"e";"f";"g";"h";"i";"j";"k";"l";"m";"n";"o";"p"]%string));
        [done|done|].
      repeat constructor.
    + by vm_compute.
  - erewrite (proj1 (createGame_board_validation [] _)
                (map str ["я";"b";"c";"d";"e";"f";"g";"h";"i";"j";"k";"l";"m";"n";"o";"p"]%string));
      [done|done|done|].
    repeat constructor.
  - apply (proj2 (createGame_board_validation [] _)).
    intros (cs & Hcs & Hlen & _). rewrite field_here in Hcs.
    apply strings_of_inj in Hcs. subst cs. by rewrite length_map in Hlen.
  - apply (proj2 (createGame_board_validation [] _)).
    intros (cs & Hcs & _ & Hall). rewrite field_here in Hcs.
    apply strings_of_inj in Hcs. subst cs.
    apply Forall_cons_1 in Hall as [Hlen _]. by vm_compute in Hlen.
Defined.

(** C7 fails on the route parameter [length], and on a body that holds an
    unprintable tile.  Once a game exists, [games["length"]] is a number
    that is not 0, and the test for the game passes although there is no
    such game: a submission is answered with DictionaryMissing, an
    attachment with InvalidDictionary or, for a valid body, with the status
    of a success while nothing is attached.  A parameter that names no game
    is answered with NotFound, and so is [length] while there is no game.
    On the tiles [[{"toString": 1}]] the shape check throws: the submission
    gets none of the five errors. *)
Theorem length_is_no_game :
  games_at (str "length") = Some the_length
  ∧ makeMove_route [test_game] (str "length") (tiles_of [6; 1; 2])
    = Some ([test_game], DictionaryMissing)
  ∧ setGameDict_route [test_game] (str "length") (VObj []) = Some ([test_game], InvalidDictionary)
  ∧ setGameDict_route [test_game] (str "length") long_dict = Some ([test_game], sendStatus 204)
  ∧ makeMove_route [test_game] (str "1") (tiles_of [6; 1; 2]) = Some ([test_game], NotFound)
  ∧ setGameDict_route [test_game] (str "1") (VObj []) = Some ([test_game], NotFound)
  ∧ makeMove_route [] (str "length") (tiles_of [6; 1; 2]) = Some ([], NotFound)
  ∧ makeMove_route [test_game] (str "0") (tiles_of [6; 1; 2])
    = Some (move_appended [test_game] 0 test_game (elements (Some (tiles_of [6; 1; 2]))),
            json_move 201 0 1)
  ∧ tileIsValid unprintable = Threw
  ∧ makeMove [test_game] 0 (VArr [unprintable]) = ([test_game], uncaught)
  ∧ makeMove_route [test_game] (str "0") (VArr [unprintable]) = Some ([test_game], uncaught)
  ∧ uncaught ∉ [NotFound; DictionaryMissing; MalformedMove; DisallowedMove; DuplicateMove].
Proof.
  split; [by vm_compute|]. split; [by vm_compute|]. split; [by vm_compute|].
  split; [by vm_compute|]. split; [by vm_compute|]. split; [by vm_compute|].
  split; [by vm_compute|]. split; [by vm_compute|]. split; [by vm_compute|].
  split; [by vm_compute|]. split; [by vm_compute|].
  intros Hin. repeat (apply elem_of_cons in Hin as [Hin|Hin]; [done|]).
  by apply elem_of_nil in Hin.
Qed.

(** [failure_leaves_state]: a failing request to each controller, and a
    submission on which the controller throws *)
Lemma failure_leaves_state_witness :
  makeMove [test_game] 0 (tiles_of [12; 15; 1; 4]) = ([test_game], DisallowedMove)
  ∧ setGameDict [test_game] 0 (VObj [(str "words", VNum 3)]) = ([test_game], InvalidDictionary)
  ∧ createGame [test_game] (VObj []) = ([test_game], InvalidBoard)
  ∧ makeMove [test_game] 0 (VArr [VNum 6; unprintable]) = ([test_game], uncaught).
Proof.
  assert (Hmove : snd (makeMove [test_game] 0 (tiles_of [12; 15; 1; 4])) = DisallowedMove)
    by by vm_compute.
  assert (Hattach : snd (setGameDict [test_game] 0 (VObj [(str "words", VNum 3)]))
                    = InvalidDictionary) by by vm_compute.
  assert (Hcreate : snd (createGame [test_game] (VObj [])) = InvalidBoard) by by vm_compute.
  assert (Hthrow : snd (makeMove [test_game] 0 (VArr [VNum 6; unprintable])) = uncaught)
    by by vm_compute.
  destruct (failure_leaves_state [test_game] 0 (tiles_of [12; 15; 1; 4])) as (Hm & _).
  destruct (failure_leaves_state [test_game] 0 (VObj [(str "words", VNum 3)]))
    as (_ & Ha & _).
  destruct (failure_leaves_state [test_game] 0 (VObj [])) as (_ & _ & Hc & _).
  destruct (failure_leaves_state [test_game] 0 (VArr [VNum 6; unprintable]))
    as (_ & _ & _ & Ht & _).
  split; [|split; [|split]].
  - rewrite (surjective_pairing (makeMove _ _ _)), Hm, Hmove; [done|].
    rewrite Hmove. set_solver.
  - rewrite (surjective_pairing (setGameDict _ _ _)), Ha, Hattach; [done|].
    rewrite Hattach. set_solver.
  - by rewrite (surjective_pairing (createGame _ _)), Hc, Hcreate.
  - by rewrite (surjective_pairing (makeMove _ _ _)), Ht, Hthrow.
Defined.

(** [moveIds_sequential] on a run with refused submissions in between: the
    two accepted moves are numbered 0 and 1 *)
Lemma moveIds_sequential_witness :
  snd (run [] interleaved_run)
  = [json_gameId 201 0; sendStatus 204; DisallowedMove; json_move 201 0 1;
     DuplicateMove; uncaught; NotFound; json_move 201 1 1]
  ∧ moves_of (fst (run [] interleaved_run)) 0
    = [elements (Some (tiles_of [6; 1; 2])); tiles_2_1_2]
  ∧ moveIds 0 interleaved_run (snd (run [] interleaved_run)) = [0; 1]%nat.
Proof.
  assert (Hmoves : moves_of (fst (run [] interleaved_run)) 0
                   = [elements (Some (tiles_of [6; 1; 2])); tiles_2_1_2]) by by vm_compute.
  split; [by vm_compute|]. split; [exact Hmoves|].
  rewrite (proj1 (moveIds_sequential interleaved_run 0)). by rewrite Hmoves.
Defined.

(** C10 fails on the path 2, 1, "2".  Every element passes [tileIsValid], the
    string as the number 2; it follows tile 1 ("2" - 1 is 1), the set of the
    three elements has three members because the string "2" is not the
    number 2, and the word is BAB, read from tiles 2, 1 and 2 again.  The
    move is accepted and stored with a tile that occurs twice and an element
    that is not a number. *)
Theorem repeated_tile_accepted :
  every_tileIsValid tiles_2_1_2 = Returned true
  ∧ moveIsAllowed tiles_2_1_2 test_game = Returned true
  ∧ map ToNumber tiles_2_1_2 = [Returned (int 2); Returned (int 1); Returned (int 2)]
  ∧ tilesToWord tiles_2_1_2 test_game = Returned (str "BAB")
  ∧ makeMove [test_game] 0 (VArr tiles_2_1_2)
    = ([ {| dict := dict test_game; board := board test_game; moves := [tiles_2_1_2] |} ],
       json_move 201 0 1)
  ∧ snd (run [] [POST_games test_board; PUT_dict 0 test_dict; POST_moves 0 (VArr tiles_2_1_2)])
    = [json_gameId 201 0; sendStatus 204; json_move 201 0 1]
  ∧ moves_of (fst (run [] [POST_games test_board; PUT_dict 0 test_dict;
                           POST_moves 0 (VArr tiles_2_1_2)])) 0
    = [tiles_2_1_2].
Proof. repeat split; by vm_compute. Qed.

(** [number_moves_are_distinct_indices] on the accepted move 6, 1, 2 *)
Lemma number_moves_are_distinct_indices_witness :
  NoDup (map tile_index (elements (Some (tiles_of [6; 1; 2]))))
  ∧ (3 ≤ length (elements (Some (tiles_of [6; 1; 2]%Z))) ≤ 16)%nat.
Proof.
  assert (Haccepted : makeMove [test_game] 0 (tiles_of [6; 1; 2])
            = (move_appended [test_game] 0 test_game (elements (Some (tiles_of [6; 1; 2]))),
               json_move 201 0 1)) by by vm_compute.
  destruct (number_moves_are_distinct_indices _ _ _ _ _ _ _ Haccepted eq_refl)
    as (_ & Hdistinct & Hlength & _).
  by split.
Defined.

(** [setGameDict_attach]: a list of one word, and a list holding a number *)
Lemma setGameDict_attach_witness :
  setGameDict [test_game] 0 (VObj [(str "words", strings_of [str "dog"])])
  = ([ {| dict := Some (list_to_set [str "DOG"]); board := board test_game; moves := [] |} ],
     sendStatus 204)
  ∧ setGameDict [test_game] 0 (VObj [(str "words", VArr [VStr (str "dog"); VNum 3])])
    = ([test_game], InvalidDictionary).
Proof.
  destruct (setGameDict_attach [test_game] 0 test_game
              (VObj [(str "words", strings_of [str "dog"])]) eq_refl) as [Hattach _].
  destruct (setGameDict_attach [test_game] 0 test_game
              (VObj [(str "words", VArr [VStr (str "dog"); VNum 3])]) eq_refl) as [_ Hinvalid].
  split.
  - by rewrite (Hattach [str "dog"] eq_refl).
  - apply Hinvalid. intros ([|w [|w' ws]] & [= Hws]); done.
Defined.

(** [shape_check_answers] on the test game: a body that is no array, a tile
    out of range, an infinite tile, an unprintable tile before and after a
    tile out of range, and a path of two tiles *)
Lemma shape_check_answers_witness :
  makeMove [test_game] 0 (VObj []) = ([test_game], MalformedMove)
  ∧ makeMove [test_game] 0 (tiles_of [1; 2; 17]) = ([test_game], MalformedMove)
  ∧ makeMove [test_game] 0 (VArr [VNum 1; VNum (Infinity false)]) = ([test_game], MalformedMove)
  ∧ makeMove [test_game] 0 (VArr [VNum 17; unprintable]) = ([test_game], MalformedMove)
  ∧ makeMove [test_game] 0 (VArr [unprintable; VNum 17]) = ([test_game], uncaught)
  ∧ makeMove [test_game] 0 (tiles_of [1; 2]) = ([test_game], DisallowedMove).
Proof.
  destruct (shape_check_answers [test_game] 0 test_game _ eq_refl eq_refl)
    as (Hnot_array & Hbad_tile & Hthrows & _ & _ & _ & Hshort).
  split; [by apply Hnot_array|]. split; [|split; [|split; [|split]]].
  - apply (Hbad_tile [VNum 1; VNum 2] (VNum 17) []); [|done].
    by repeat constructor.
  - apply (Hbad_tile [VNum 1] (VNum (Infinity false)) []); [|done].
    by repeat constructor.
  - by apply (Hbad_tile [] (VNum 17) [unprintable]).
  - by apply (Hthrows [] unprintable [VNum 17]).
  - by apply (Hshort (elements (Some (tiles_of [1; 2])))); [|simpl; lia].
Defined.

(** [checks_in_order]: one request stopped at each check *)
Lemma checks_in_order_witness :
  makeMove [] 0 (VObj []) = ([], NotFound)
  ∧ makeMove [ {| dict := None; board := board test_game; moves := [] |} ] 0 (VObj [])
    = ([ {| dict := None; board := board test_game; moves := [] |} ], DictionaryMissing)
  ∧ makeMove [test_game] 0 (VObj []) = ([test_game], MalformedMove)
  ∧ makeMove [test_game] 0 (tiles_of [0; 9]) = ([test_game], MalformedMove)
  ∧ makeMove [test_game] 0 (VArr [unprintable; VNum 9]) = ([test_game], uncaught)
  ∧ makeMove [test_game] 0 (tiles_of [12; 15; 1; 4]) = ([test_game], DisallowedMove)
  ∧ setGameDict [] 0 (VObj []) = ([], NotFound).
Proof.
  split; [by apply (proj1 (checks_in_order [] 0 (VObj [])))|].
  split.
  { destruct (checks_in_order [ {| dict := None; board := board test_game; moves := [] |} ]
                0 (VObj []))
      as (_ & Hdict & _). by eapply Hdict. }
  split.
  { destruct (checks_in_order [test_game] 0 (VObj [])) as (_ & _ & Harray & _).
    by eapply Harray. }
  split.
  { destruct (checks_in_order [test_game] 0 (tiles_of [0; 9])) as (_ & _ & _ & Hshape & _).
    by eapply Hshape. }
  split.
  { destruct (checks_in_order [test_game] 0 (VArr [unprintable; VNum 9]))
      as (_ & _ & _ & _ & Hthrow & _).
    by eapply Hthrow. }
  split.
  { destruct (checks_in_order [test_game] 0 (tiles_of [12; 15; 1; 4]))
      as (_ & _ & _ & _ & _ & Hrules & _).
    assert (Hvalid : every_tileIsValid (elements (Some (tiles_of [12; 15; 1; 4])))
                     = Returned true) by by vm_compute.
    destruct (Hrules test_game _ _ eq_refl eq_refl eq_refl Hvalid) as [[_ Hno]|[Hyes _]];
      [exact Hno|].
    exfalso. revert Hyes. by vm_compute. }
  destruct (checks_in_order [] 0 (VObj [])) as (_ & _ & _ & _ & _ & _ & Hattach & _).
  by apply Hattach.
Defined.

(** The run of the test suite: the eight requests of [server.test.js], in
    order, with a dictionary that holds FAB, get the eight responses the
    tests expect. *)
Theorem test_suite_run :
  snd (run []
         [POST_games (VObj []); POST_games test_board;
          PUT_dict 0 (VObj []); PUT_dict 0 test_dict;
          POST_moves 0 (VObj []); POST_moves 0 (tiles_of [12; 15; 1; 4]);
          POST_moves 0 (tiles_of [6; 1; 2]); POST_moves 0 (tiles_of [6; 1; 2])])
  = [send 400 "Invalid board"; json_gameId 201 0;
     send 400 "Invalid dictionary"; sendStatus 204;
     send 400 "Move must be list of 3+ tiles"; send 403 "Move is not allowed on board";
     json_move 201 0 1; send 403 "Move already played"].
Proof. by vm_compute. Qed.

(** * The further properties on the scenario *)

(** [other_games_untouched]: a move in game 0 and a new game leave game 1 alone *)
Lemma other_games_untouched_witness :
  fst (run [test_game; twice_game] [POST_moves 0 (tiles_of [6; 1; 2]); POST_games test_board])
    !! 1%nat
  = Some twice_game.
Proof.
  apply (other_games_untouched _ [test_game; twice_game] 1 twice_game eq_refl).
  repeat constructor; done.
Defined.

(** [games_persist]: after an accepted move and a refused attachment, game 0
    is still there with its board, its dictionary and its move *)
Lemma games_persist_witness :
  ∃ game',
    fst (run [test_game] [POST_moves 0 (tiles_of [6; 1; 2]); PUT_dict 0 (VObj [])]) !! 0%nat
    = Some game'
    ∧ board game' = board test_game
    ∧ moves test_game `prefix_of` moves game'.
Proof.
  destruct (games_persist [POST_moves 0 (tiles_of [6; 1; 2]); PUT_dict 0 (VObj [])]
              [test_game] 0 test_game (VObj []) eq_refl)
    as (game' & Hg & Hb & Hm & _).
  by exists game'.
Defined.

(** [last_dictionary_wins]: DOG attached after CAT, and DOG attached at once *)
Lemma last_dictionary_wins_witness :
  setGameDict
    (fst (setGameDict [test_game] 0 (VObj [(str "words", strings_of [str "cat"])])))
    0 (VObj [(str "words", strings_of [str "dog"])])
  = setGameDict [test_game] 0 (VObj [(str "words", strings_of [str "dog"])]).
Proof. apply last_dictionary_wins. reflexivity. Defined.

(** [resubmission_is_duplicate] on the move 6, 1, 2 *)
Lemma resubmission_is_duplicate_witness :
  makeMove (move_appended [test_game] 0 test_game (elements (Some (tiles_of [6; 1; 2]))))
    0 (tiles_of [6; 1; 2])
  = (move_appended [test_game] 0 test_game (elements (Some (tiles_of [6; 1; 2]))),
     DuplicateMove).
Proof.
  assert (Haccepted : makeMove [test_game] 0 (tiles_of [6; 1; 2])
            = (move_appended [test_game] 0 test_game (elements (Some (tiles_of [6; 1; 2]))),
               json_move 201 0 1)) by by vm_compute.
  exact (resubmission_is_duplicate _ _ _ _ _ _ _ Haccepted).
Defined.

(** [integer_paths_linked] on the path 6, 1, 2 *)
Lemma integer_paths_linked_witness :
  every isConsecutiveNeighbor (elements (Some (tiles_of [6; 1; 2]))) = Returned (linked [6; 1; 2]).
Proof.
  assert (Hrange : Forall (λ z, 1 ≤ z ≤ 16) [6; 1; 2]) by (repeat constructor; lia).
  exact (proj1 (integer_paths_linked [6; 1; 2] Hrange)).
Defined.

(** [neighbour_test_on_grid] on tiles 4 and 5, which pass without touching *)
Lemma neighbour_test_on_grid_witness :
  isConsecutiveNeighbor (VNum 5) 1 [VNum 4; VNum 5] = Returned (grid_neighbours 4 5 || wraps 4 5)
  ∧ grid_neighbours 4 5 = false ∧ wraps 4 5 = true.
Proof.
  split; [|done].
  assert (Ha : 1 ≤ 4 ≤ 16) by lia. assert (Hb : 1 ≤ 5 ≤ 16) by lia.
  assert (Hi : 1%nat ≠ 0%nat) by done.
  exact (proj1 (neighbour_test_on_grid [VNum 4; VNum 5] 1 4 5 Ha Hb Hi eq_refl)).
Defined.

(** [tile_check_by_conversion]: the string "16" and the array [[7]] pass; an
    object with a property [toString] throws, alone or inside arrays *)
Lemma tile_check_by_conversion_witness :
  tileIsValid (VStr (str "16")) = Returned true
  ∧ tileIsValid (VArr [VArr [VNum 7]]) = Returned true
  ∧ tileIsValid unprintable = Threw
  ∧ tileIsValid (VArr [VNull; VArr [VNum 7; unprintable]]) = Threw.
Proof.
  split; [|split; [|split]].
  - apply (proj1 (tile_check_by_conversion (VStr (str "16")))).
    exists (inject_Z 16), 16. split; [by vm_compute|]. split; [done|lia].
  - apply (proj1 (tile_check_by_conversion (VArr [VArr [VNum 7]]))).
    exists (inject_Z 7), 7. split; [by vm_compute|]. split; [done|lia].
  - destruct (tile_check_by_conversion unprintable) as (_ & _ & Hthrows & _).
    apply Hthrows. by vm_compute.
  - destruct (tile_check_by_conversion (VArr [VNull; VArr [VNum 7; unprintable]]))
      as (_ & _ & Hthrows & _).
    apply Hthrows. by vm_compute.
Defined.

(** [what_follows_what] on the string "1" after the string "11": "1" + 1 is "11" *)
Lemma what_follows_what_witness :
  isConsecutiveNeighbor (VStr (str "1")) 1 [VStr (str "11"); VStr (str "1")] = Returned true
  ∧ ((∃ n, VStr (str "11") = VNum n)
     ∨ (∃ s t (k : Z), VStr (str "11") = VStr s ∧ ToPrimitive (VStr (str "1")) = Returned (VStr t)
          ∧ k ∈ [4; 1; 3; 5] ∧ s = t ++ NumberToString (int k))).
Proof.
  assert (Hi : 1%nat ≠ 0%nat) by done.
  assert (Hfollows : isConsecutiveNeighbor (VStr (str "1")) 1 [VStr (str "11"); VStr (str "1")]
                     = Returned true) by by vm_compute.
  split; [exact Hfollows|].
  exact (proj1 (what_follows_what (VStr (str "1")) 1 [VStr (str "11"); VStr (str "1")]
                  (VStr (str "11")) Hi eq_refl Hfollows)).
Defined.

(** [stored_moves_are_paths] after the board, the dictionary and the move 6, 1, 2 *)
Lemma stored_moves_are_paths_witness :
  length (board test_game) = 16%nat
  ∧ Forall (λ move, (3 ≤ length move)%nat ∧ every_tileIsValid move = Returned true
                    ∧ every isConsecutiveNeighbor move = Returned true
                    ∧ length (Set_of move) = length move)
      [elements (Some (tiles_of [6; 1; 2]))].
Proof.
  assert (Hstate :
    fst (run [] [POST_games test_board; PUT_dict 0 test_dict; POST_moves 0 (tiles_of [6; 1; 2])])
      !! 0%nat
    = Some {| dict := dict test_game; board := board test_game;
              moves := [elements (Some (tiles_of [6; 1; 2]))] |}) by by vm_compute.
  destruct (stored_moves_are_paths _ _ _ Hstate) as (Hlen & _ & Hpaths).
  by split.
Defined.

(** [stored_words_distinct] after two accepted moves: FAB and BAB *)
Lemma stored_words_distinct_witness :
  ∃ played,
    words_played {| dict := dict test_game; board := board test_game;
                    moves := [elements (Some (tiles_of [6; 1; 2])); tiles_2_1_2] |}
    = Returned played
    ∧ played = [str "FAB"; str "BAB"] ∧ NoDup played.
Proof.
  assert (Hstate :
    fst (run [] [POST_games test_board; PUT_dict 0 test_dict;
                 POST_moves 0 (tiles_of [6; 1; 2]); POST_moves 0 (VArr tiles_2_1_2)])
      !! 0%nat
    = Some {| dict := dict test_game; board := board test_game;
              moves := [elements (Some (tiles_of [6; 1; 2])); tiles_2_1_2] |}) by by vm_compute.
  destruct (stored_words_distinct _ _ _ Hstate) as (played & Hplayed & _ & Hdistinct & _).
  exists played. split; [done|]. split; [|done].
  assert (Hcomputed :
    words_played {| dict := dict test_game; board := board test_game;
                    moves := [elements (Some (tiles_of [6; 1; 2])); tiles_2_1_2] |}
    = Returned [str "FAB"; str "BAB"]) by by vm_compute.
  rewrite Hcomputed in Hplayed. by injection Hplayed as <-.
Defined.

(** [test_suite_responses] on the board A..P and the test dictionary *)
Lemma test_suite_responses_witness :
  snd (run []
         [POST_games (VObj []); POST_games test_board;
          PUT_dict 0 (VObj []); PUT_dict 0 test_dict;
          POST_moves 0 (VObj []); POST_moves 0 (tiles_of [12; 15; 1; 4]);
          POST_moves 0 (tiles_of [6; 1; 2]); POST_moves 0 (tiles_of [6; 1; 2])])
  = [send 400 "Invalid board"; json_gameId 201 0;
     send 400 "Invalid dictionary"; sendStatus 204;
     send 400 "Move must be list of 3+ tiles"; send 403 "Move is not allowed on board";
     json_move 201 0 1; send 403 "Move already played"].
Proof.
  apply (test_suite_responses
           (map str ["a";"b";"c";"d";"e";"f";"g";"h";"i";"j";"k";"l";"m";"n";"o";"p"]%string)
           (map str ["fab"; "Load"; "bab"]%string) (str "FAB")).
  - reflexivity.
  - repeat constructor.
  - by vm_compute.
  - by vm_compute.
Defined.

(** [route_parameter]: game 12 of 13 games by its numeral, the id of a new
    game, [length] with one game, and the strings 007 and 4294967295 *)
Lemma route_parameter_witness :
  numeral 12 = str "12"
  ∧ makeMove_route (replicate 13 test_game) (str "12") (tiles_of [6; 1; 2])
    = Some (makeMove (replicate 13 test_game) 12 (tiles_of [6; 1; 2]))
  ∧ snd (makeMove (replicate 13 test_game) 12 (tiles_of [6; 1; 2])) = json_move 201 0 1
  ∧ snd <$> makeMove_route (fst (createGame [test_game] test_board)) (str "1") (VObj [])
    = Some DictionaryMissing
  ∧ setGameDict_route [test_game] (str "length") long_dict = Some ([test_game], sendStatus 204)
  ∧ makeMove_route [test_game] (str "007") (VObj []) = Some ([test_game], NotFound)
  ∧ makeMove_route [test_game] (str "4294967295") (VObj []) = Some ([test_game], NotFound).
Proof.
  assert (Hnumeral : numeral 12 = str "12") by by vm_compute.
  assert (Hone : numeral 1 = str "1") by by vm_compute.
  destruct (route_parameter (replicate 13 test_game) (tiles_of [6; 1; 2]))
    as (Hindex & _).
  destruct (route_parameter [test_game] (VObj [])) as (_ & Hcreated & _ & _ & Hnone).
  destruct (route_parameter [test_game] long_dict) as (_ & _ & Hlength & _).
  split; [exact Hnumeral|]. split; [|split; [|split; [|split; [|split]]]].
  - rewrite <- Hnumeral. apply Hindex. lia.
  - by vm_compute.
  - rewrite <- Hone.
    rewrite (Hcreated test_board (fst (createGame [test_game] test_board)) 1%nat);
      [done|by vm_compute|lia].
  - by apply Hlength.
  - apply Hnone. by vm_compute.
  - apply Hnone. by vm_compute.
Defined.
